(** * lsreader: Local Storage reader for Chromium-family browsers

    A shallow embedding of [lsreader.py] and the verification of its
    specification.  The module has two halves:

    - the process locator ([search_processes], [list_open_files],
      [find_local_storage]), which queries the operating system, and
    - the accessor class [LocalStorage], a lazily connected wrapper around
      one SQLite file.

    The operating system, the file system and the SQLite driver are external
    collaborators.  They are gathered in a record [World] of query functions;
    every function of the module takes the world it runs in as an argument.
    Python exceptions are values of [exn], a call that may raise returns an
    [outcome], generators are modelled by what their consumer observes (the
    items yielded, then how the iteration ended) and methods of the accessor
    are computations of a small state-and-exception monad.

    The host is POSIX, so the guard at import time passes.  The filter given
    to [search_processes] is a total boolean function, and [os.path.realpath]
    (non-strict) always returns a path. *)

From Stdlib Require Import Ascii String DecimalString.
From stdpp Require Import base option list strings gmap.

Local Open Scope string_scope.

(** ** Exceptions and outcomes *)

(** The exception classes that the module or its collaborators raise. *)
Inductive exn : Type :=
  | AttributeError      (* attribute access on None *)
  | TypeError           (* subscript of None *)
  | IndexError
  | KeyError
  | OSError             (* FileNotFoundError, PermissionError, ... *)
  | AccessDenied        (* psutil.AccessDenied *)
  | NoSuchProcess       (* psutil.NoSuchProcess *)
  | OperationalError    (* sqlite3.OperationalError *)
  | ProgrammingError.   (* sqlite3.ProgrammingError *)

#[global] Instance exn_eq_dec : EqDecision exn.
Proof. solve_decision. Defined.

(** The result of evaluating a Python expression. *)
Inductive outcome (A : Type) : Type :=
  | Ret (a : A)
  | Raise (e : exn).
Arguments Ret {A} a.
Arguments Raise {A} e.

(** A generator, as seen by the loop that consumes it: the items it yields in
    order, and whether the iteration then stops normally ([None]) or with an
    exception. *)
Definition gen (A : Type) : Type := (list A * option exn)%type.

Definition gen_yield {A} (a : A) (g : gen A) : gen A := (a :: g.1, g.2).
Definition gen_stop {A} : gen A := ([], None).
Definition gen_raise {A} (e : exn) : gen A := ([], Some e).

(** ** Python string primitives *)

Module PyStr.

(** [s.startswith(p)] *)
Definition startswith (s p : string) : bool := String.prefix p s.

(** [s.endswith(suf)] *)
Fixpoint endswith (s suf : string) : bool :=
  String.eqb s suf ||
  match s with
  | EmptyString => false
  | String _ s' => endswith s' suf
  end.

(** [needle in s] *)
Fixpoint contains (needle s : string) : bool :=
  String.prefix needle s ||
  match s with
  | EmptyString => false
  | String _ s' => contains needle s'
  end.

(** [s.rfind(c) + 1]: one past the last occurrence of [c], 0 if none. *)
Fixpoint rfind_succ (c : ascii) (s : string) : nat :=
  match s with
  | EmptyString => 0
  | String a r =>
      match rfind_succ c r with
      | 0 => if Ascii.eqb a c then 1 else 0
      | S k => S (S k)
      end
  end.

(** [s[:i]] and [s[i:]] for [0 <= i]. *)
Definition slice_to (i : nat) (s : string) : string := String.substring 0 i s.
Definition slice_from (i : nat) (s : string) : string :=
  String.substring i (String.length s - i) s.

(** [s.rstrip(c)] for a one-character argument. *)
Fixpoint rstrip (c : ascii) (s : string) : string :=
  match s with
  | EmptyString => EmptyString
  | String a r =>
      match rstrip c r with
      | EmptyString => if Ascii.eqb a c then EmptyString else String a EmptyString
      | r' => String a r'
      end
  end.

(** [s == c * len(s)] *)
Fixpoint all_char (c : ascii) (s : string) : bool :=
  match s with
  | EmptyString => true
  | String a r => Ascii.eqb a c && all_char c r
  end.

(** [bool(s)] *)
Definition truthy (s : string) : bool :=
  match s with EmptyString => false | _ => true end.

(** [str(n)] for a non-negative integer. *)
Definition of_nat (n : nat) : string := NilZero.string_of_uint (Nat.to_uint n).

End PyStr.

(** ** posixpath *)

Module PosixPath.
Import PyStr.

Definition sep : ascii := "/"%char.

(** [os.path.basename(p)]: [i = p.rfind('/') + 1; return p[i:]] *)
Definition basename (p : string) : string :=
  let i := rfind_succ sep p in
  slice_from i p.

(** [os.path.dirname(p)]:
    [i = p.rfind('/') + 1; head = p[:i];
     if head and head != '/' * len(head): head = head.rstrip('/')] *)
Definition dirname (p : string) : string :=
  let i := rfind_succ sep p in
  let head := slice_to i p in
  if truthy head && negb (all_char sep head) then rstrip sep head else head.

(** [os.path.join(a, b)] *)
Definition join (a b : string) : string :=
  if startswith b "/" then b
  else if negb (truthy a) || endswith a "/" then a ++ b
  else a ++ "/" ++ b.

End PosixPath.

(** ** Python values read from SQLite

    The driver maps the storage classes NULL, INTEGER, TEXT and BLOB to
    [None], [int], [str] and [bytes].  (REAL, mapped to [float], is left out:
    Chromium stores text keys and blob values in [ItemTable].) *)
Inductive pyval : Type :=
  | PyNone
  | PyInt (z : Z)
  | PyStr (s : string)
  | PyBytes (b : list Byte.byte).

(** [bool(v)] *)
Definition pyval_truthy (v : pyval) : bool :=
  match v with
  | PyNone => false
  | PyInt z => negb (Z.eqb z 0)
  | PyStr s => PyStr.truthy s
  | PyBytes b => match b with [] => false | _ => true end
  end.

(** A row of [ItemTable]: column 0 is the key, column 1 the value. *)
Definition row : Type := (string * pyval)%type.

(** ** The world outside the module *)

(** [psutil.Process]: a handle on a running process. *)
Record Process : Type := { pid : nat }.

Record World : Type := {
  (** [os.environ] *)
  environ : gmap string string;
  (** [psutil.process_iter()] *)
  process_iter : list Process;
  (** [proc.username()] *)
  proc_username : Process → outcome string;
  (** [proc.exe()] *)
  proc_exe : Process → outcome string;
  (** [os.path.realpath(p)] *)
  realpath : string → string;
  (** [os.listdir(d)] *)
  listdir : string → outcome (list string);
  (** [os.readlink(p)] *)
  readlink : string → outcome string;
  (** whether [sqlite3.connect(p)] succeeds *)
  sqlite_open : string → outcome unit;
  (** the rows of [ItemTable] in the database file [p], in scan order, or
      the exception that a query on that table raises *)
  item_table : string → outcome (list row);
}.

(** ** Process locator *)

Section ProcessLocator.
Context (w : World).

(** [any_user or proc.username() == os.environ['USER']] *)
Definition owner_test (any_user : bool) (proc : Process) : outcome bool :=
  if any_user then Ret true
  else
    match proc_username w proc with
    | Raise e => Raise e
    | Ret name =>
        match environ w !! "USER" with
        | None => Raise KeyError
        | Some user => Ret (String.eqb name user)
        end
    end.

(** The body of the loop of [search_processes], over the processes that
    [psutil.process_iter()] still has to deliver. *)
Fixpoint search_loop (process_filter : string → string → bool)
    (any_user : bool) (procs : list Process) : gen Process :=
  match procs with
  | [] => gen_stop
  | proc :: rest =>
      match owner_test any_user proc with
      | Raise e => gen_raise e
      | Ret false => search_loop process_filter any_user rest
      | Ret true =>
          (* try: *)
          match proc_exe w proc with
          | Ret p =>
              let exe := realpath w p in
              if process_filter exe (PosixPath.basename exe)
              then gen_yield proc (search_loop process_filter any_user rest)
              else search_loop process_filter any_user rest
          (* except psutil.AccessDenied: pass *)
          | Raise AccessDenied => search_loop process_filter any_user rest
          | Raise e => gen_raise e
          end
      end
  end.

Definition search_processes (process_filter : string → string → bool)
    (any_user : bool) : gen Process :=
  search_loop process_filter any_user (process_iter w).

(** The loop of [list_open_files] over the names in [/proc/<pid>/fd]. *)
Fixpoint readlink_loop (fdir : string) (names : list string) : gen string :=
  match names with
  | [] => gen_stop
  | _f :: rest =>
      match readlink w (PosixPath.join fdir _f) with
      | Raise e => gen_raise e
      | Ret target => gen_yield target (readlink_loop fdir rest)
      end
  end.

Definition list_open_files (proc : Process) : gen string :=
  let fdir := "/proc/" ++ PyStr.of_nat (pid proc) ++ "/fd" in
  match listdir w fdir with
  | Raise e => gen_raise e
  | Ret names => readlink_loop fdir names
  end.

(** The loop of [find_local_storage]: it leaves at the first match, so the
    end of the generator is only observed when nothing matched. *)
Fixpoint find_loop (files : list string) (stop : option exn)
    : outcome (option string) :=
  match files with
  | [] => match stop with Some e => Raise e | None => Ret None end
  | _f :: rest =>
      if PyStr.contains "Local Storage" _f
      then Ret (Some (PosixPath.dirname _f))
      else find_loop rest stop
  end.

Definition find_local_storage (proc : Process) : outcome (option string) :=
  let files := list_open_files proc in
  find_loop files.1 files.2.

(** The processes that [search_processes] is to deliver when it only
    looks at the caller's own: owner and [USER] are both known and equal,
    the executable resolves and the filter accepts it. *)
Definition selected (flt : string → string → bool) (proc : Process)
    : bool :=
  match environ w !! "USER", proc_username w proc, proc_exe w proc with
  | Some user, Ret name, Ret p =>
      String.eqb name user
      && flt (realpath w p) (PosixPath.basename (realpath w p))
  | _, _, _ => false
  end.

End ProcessLocator.

(** ** The accessor class *)

(** A [sqlite3.Connection] object: the file it was opened on and whether it
    is still open.  Connections live in a store, and a reference to one is
    its index there, so two references are identical exactly when they are
    the same index. *)
Record Connection : Type := { conn_path : string; conn_open : bool }.

Abbreviation conn_ref := nat.

(** The attributes of a [LocalStorage] instance. *)
Record LocalStorage : Type := {
  storage : string;
  site : string;
  proto : string;
  connection : option conn_ref;
}.

(** [LocalStorage(site, storage, proto='https')] *)
Definition init (site_ storage_ : string) (proto_ : option string) : LocalStorage :=
  {| storage := storage_; site := site_; proto := default "https" proto_;
     connection := None |}.

(** What a method call can change: the instance and the connection store. *)
Record State : Type := { self : LocalStorage; conns : list Connection }.

(** Computations that read and update the state and may raise.  The state
    reached when an exception is raised is kept: effects are not undone. *)
Definition M (A : Type) : Type := State → outcome A * State.

#[global] Instance M_ret : MRet M := λ A a s, (Ret a, s).
#[global] Instance M_bind : MBind M := λ A B f m s,
  match m s with
  | (Ret a, s') => f a s'
  | (Raise e, s') => (Raise e, s')
  end.

Definition raise {A} (e : exn) : M A := λ s, (Raise e, s).
Definition lift {A} (o : outcome A) : M A := λ s, (o, s).
Definition get_self : M LocalStorage := λ s, (Ret (self s), s).
Definition get_conns : M (list Connection) := λ s, (Ret (conns s), s).

(** [self.connection = c] *)
Definition with_connection (this : LocalStorage) (c : option conn_ref)
    : LocalStorage :=
  {| storage := storage this; site := site this; proto := proto this;
     connection := c |}.

Definition set_connection (c : option conn_ref) : M unit := λ s,
  (Ret (), {| self := with_connection (self s) c; conns := conns s |}).

(** [try: m except e: handler] *)
Definition try_except {A} (m : M A) (e : exn) (handler : M A) : M A := λ s,
  match m s with
  | (Raise e', s') => if decide (e' = e) then handler s' else (Raise e', s')
  | r => r
  end.

(** Unfolds the monad to the state functions underneath. *)
Ltac run :=
  unfold mbind, M_bind, mret, M_ret, get_self, get_conns, set_connection,
    lift, raise; simpl.

(** The state after a successful [sqlite3.connect(path)] and
    [self.connection = ...]. *)
Definition connected_state (s : State) (path : string) : State :=
  {| self := with_connection (self s) (Some (length (conns s)));
     conns := conns s ++ [ {| conn_path := path; conn_open := true |} ] |}.

Section Accessor.
Context (w : World).

(** [sqlite3.connect(path)]: a new connection object on every call. *)
Definition sqlite3_connect (path : string) : M conn_ref := λ s,
  match sqlite_open w path with
  | Raise e => (Raise e, s)
  | Ret _ =>
      (Ret (length (conns s)),
       {| self := self s;
          conns := conns s ++ [ {| conn_path := path; conn_open := true |} ] |})
  end.

(** [con.close()] *)
Definition closed (o : Connection) : Connection :=
  {| conn_path := conn_path o; conn_open := false |}.

Definition Connection_close (c : conn_ref) : M unit := λ s,
  (Ret (), {| self := self s; conns := alter closed c (conns s) |}).

(** A query on [ItemTable] through the object [con]: [None] has no
    [execute] or [cursor] attribute, a closed connection refuses to run
    anything. *)
Definition query_ItemTable (con : option conn_ref) : M (list row) :=
  match con with
  | None => raise AttributeError
  | Some c =>
      cs ← get_conns;
      match cs !! c with
      | Some o =>
          if conn_open o then lift (item_table w (conn_path o))
          else raise ProgrammingError
      | None => raise ProgrammingError
      end
  end.

(** [_f.startswith(self.proto + '_' + self.site + '_')
     and _f.endswith('.localstorage')] *)
Definition name_matches (this : LocalStorage) (_f : string) : bool :=
  PyStr.startswith _f (proto this ++ "_" ++ site this ++ "_")
  && PyStr.endswith _f ".localstorage".

(** The loop of [connect] over the directory listing. *)
Fixpoint connect_loop (entries : list string) : M (option conn_ref) :=
  match entries with
  | [] => mret None
  | _f :: rest =>
      this ← get_self;
      if name_matches this _f then
        c ← sqlite3_connect (PosixPath.join (storage this) _f);
        set_connection (Some c);;
        mret (Some c)
      else connect_loop rest
  end.

Definition connect : M (option conn_ref) :=
  this ← get_self;
  match connection this with
  | Some c => mret (Some c)
  | None =>
      entries ← lift (listdir w (storage this));
      connect_loop entries
  end.

(** [values[row[0]] = row[1]] for every row, starting from [{}]. *)
Definition collect (rows : list row) : gmap string pyval :=
  foldl (λ values r, <[r.1 := r.2]> values) ∅ rows.

(** [SELECT * FROM ItemTable] *)
Definition read : M (gmap string pyval) :=
  con ← connect;
  rows ← query_ItemTable con;
  mret (collect rows).

(** The rows selected by [SELECT value FROM ItemTable WHERE key=?]. *)
Definition select_value (key : string) (rows : list row) : list pyval :=
  (filter (λ r, r.1 = key) rows).*2.

(** [cur.fetchone()[0]]: [fetchone] gives [None] when no row is left, and
    [None[0]] raises [TypeError]. *)
Definition fetchone_0 (result : list pyval) : M pyval :=
  match head result with
  | Some v => mret v
  | None => raise TypeError
  end.

Definition read_key (key : string) : M pyval :=
  con ← connect;
  rows ← query_ItemTable con;
  let result := select_value key rows in
  try_except (fetchone_0 result) TypeError (mret PyNone).

Definition close : M unit :=
  this ← get_self;
  match connection this with
  | Some c => Connection_close c;; set_connection None
  | None => mret ()
  end.

Definition is_connected : M bool :=
  this ← get_self;
  mret (bool_decide (is_Some (connection this))).

(** [self[key]] *)
Definition getitem (key : string) : M pyval :=
  item ← read_key key;
  if pyval_truthy item then mret item else raise IndexError.

(** [self.read()[key]] *)
Definition read_subscript (key : string) : M pyval :=
  values ← read;
  match values !! key with
  | Some v => mret v
  | None => raise KeyError
  end.

End Accessor.

(** The instance holds an open connection on a database whose [ItemTable]
    has the given rows. *)
Definition connected_to (w : World) (s : State) (rows : list row) : Prop :=
  ∃ c o,
    connection (self s) = Some c ∧
    conns s !! c = Some o ∧
    conn_open o = true ∧
    item_table w (conn_path o) = Ret rows.

(** The policy under which any permission failure on a process, whether on
    its owner or on its executable, makes the enumeration pass over that
    process: the result is what the other processes give. *)
Definition skips_access_denied (w : World) (flt : string → string → bool)
    (any_user : bool) : Prop :=
  ∀ (pre post : list Process) (proc : Process),
    process_iter w = (pre ++ proc :: post)%list →
    (proc_username w proc = Raise AccessDenied
     ∨ proc_exe w proc = Raise AccessDenied) →
    search_processes w flt any_user
    = search_loop w flt any_user (pre ++ post)%list.

(** ** Sample worlds

    Concrete hosts used to run the definitions. *)

Definition demo_dir : string := "/home/alice/.config/app/Local Storage".

Definition demo_db : string :=
  "/home/alice/.config/app/Local Storage/https_example.com_0.localstorage".

(** A host where alice runs a browser (pid 7, holding a file of its Local
    Storage directory open) and a shell (pid 9), next to root's init. *)
Definition demo_world : World := {|
  environ := {[ "USER" := "alice" ]};
  process_iter := [ {| pid := 1 |}; {| pid := 7 |}; {| pid := 9 |} ];
  proc_username := λ p, match pid p with 1 => Ret "root" | _ => Ret "alice" end;
  proc_exe := λ p,
    match pid p with
    | 1 => Raise AccessDenied
    | 7 => Ret "/usr/bin/chromium"
    | _ => Ret "/bin/sh"
    end;
  realpath := λ p,
    if String.eqb p "/usr/bin/chromium" then "/usr/lib/chromium/chrome" else p;
  listdir := λ d,
    if String.eqb d demo_dir then
      Ret [ "http_example.com_0.localstorage";
            "https_example.com_0.localstorage";
            "https_example.com_1.localstorage" ]
    else if String.eqb d "/proc/7/fd" then Ret [ "0"; "3"; "4" ]
    else if String.eqb d "/proc/9/fd" then Ret [ "0" ]
    else Raise OSError;
  readlink := λ p,
    if String.eqb p "/proc/7/fd/0" then Ret "/dev/null"
    else if String.eqb p "/proc/7/fd/3" then Ret demo_db
    else if String.eqb p "/proc/7/fd/4" then Ret "/tmp/Local Storage copy/x"
    else if String.eqb p "/proc/9/fd/0" then Ret "/dev/pts/0"
    else Raise OSError;
  sqlite_open := λ _, Ret ();
  item_table := λ p,
    if String.eqb p demo_db
    then Ret [ ("theme", PyStr "dark"); ("draft", PyStr ""); ("blob", PyBytes []) ]
    else Raise OperationalError;
|}.

(** A fresh accessor for [example.com] on the sample host. *)
Definition demo_state : State :=
  {| self := init "example.com" demo_dir None; conns := [] |}.

(** An accessor for a site that has no file in the directory. *)
Definition nosite_state : State :=
  {| self := init "nowhere.invalid" demo_dir None; conns := [] |}.

(** Sample filters. *)
Definition accept_all (exe base : string) : bool := true.
Definition is_chrome (exe base : string) : bool := String.eqb base "chrome".

(** The sample host, seen by a caller who may not read the owner of pid 1. *)
Definition locked_world : World := {|
  environ := environ demo_world;
  process_iter := process_iter demo_world;
  proc_username := λ p,
    match pid p with 1 => Raise AccessDenied | _ => Ret "alice" end;
  proc_exe := proc_exe demo_world;
  realpath := realpath demo_world;
  listdir := listdir demo_world;
  readlink := readlink demo_world;
  sqlite_open := sqlite_open demo_world;
  item_table := item_table demo_world;
|}.

(** The sample host with [USER] removed from the environment. *)
Definition nouser_world : World := {|
  environ := ∅;
  process_iter := process_iter demo_world;
  proc_username := proc_username demo_world;
  proc_exe := proc_exe demo_world;
  realpath := realpath demo_world;
  listdir := listdir demo_world;
  readlink := readlink demo_world;
  sqlite_open := sqlite_open demo_world;
  item_table := item_table demo_world;
|}.

(** The accessor of the sample host once connected. *)
Definition demo_connected : State :=
  {| self := with_connection (init "example.com" demo_dir None) (Some 0);
     conns := [ {| conn_path := demo_db; conn_open := true |} ] |}.

Definition demo_rows : list row :=
  [ ("theme", PyStr "dark"); ("draft", PyStr ""); ("blob", PyBytes []) ].

(** A database whose [ItemTable] has no uniqueness constraint on its key
    column and carries the key ["k"] twice. *)
Definition dup_rows : list row := [ ("k", PyStr "a"); ("k", PyStr "b") ].

Definition dup_world : World := {|
  environ := environ demo_world;
  process_iter := process_iter demo_world;
  proc_username := proc_username demo_world;
  proc_exe := proc_exe demo_world;
  realpath := realpath demo_world;
  listdir := listdir demo_world;
  readlink := readlink demo_world;
  sqlite_open := sqlite_open demo_world;
  item_table := λ p,
    if String.eqb p demo_db then Ret dup_rows else Raise OperationalError;
|}.

(** ** Further definitions

    The remaining method of the class, and the predicates in which the
    properties of the second part are stated. *)

(** [for row in con.execute('SELECT * FROM ItemTable'): yield row] *)
Fixpoint yield_rows (rows : list row) : gen row :=
  match rows with
  | [] => gen_stop
  | r :: rest => gen_yield r (yield_rows rest)
  end.

(** [read_iter], as observed by a consumer that runs the generator: the
    body starts with [self.connect()], so the state changes as for [read].
    A query is taken as a whole, as [item_table] gives it: either it raises
    when it is executed or it delivers all its rows; a scan that fails after
    some rows have been fetched is not represented. *)
Definition read_iter (w : World) : State → gen row * State := λ s,
  match connect w s with
  | (Raise e, s') => (gen_raise e, s')
  | (Ret con, s') =>
      match query_ItemTable w con s' with
      | (Raise e, s'') => (gen_raise e, s'')
      | (Ret rows, s'') => (yield_rows rows, s'')
      end
  end.

(** The processes that [search_processes] is to deliver when it looks at
    the processes of every user: the executable resolves and the filter
    accepts it. *)
Definition accepted (w : World) (flt : string → string → bool)
    (proc : Process) : bool :=
  match proc_exe w proc with
  | Ret p => flt (realpath w p) (PosixPath.basename (realpath w p))
  | Raise _ => false
  end.

(** The connection held by the instance, if any, is an open connection of
    the store, on a file of the storage directory whose name has the form
    that [connect] looks for. *)
Definition holds_valid (s : State) : Prop :=
  ∀ c, connection (self s) = Some c →
    ∃ o f,
      conns s !! c = Some o ∧
      conn_open o = true ∧
      name_matches (self s) f = true ∧
      conn_path o = PosixPath.join (storage (self s)) f.

(** Two states of the same instance: only [connection] may differ. *)
Definition same_instance (s s' : State) : Prop :=
  storage (self s') = storage (self s)
  ∧ site (self s') = site (self s)
  ∧ proto (self s') = proto (self s).

(** From [s] to [s'] the connection store is unchanged or has one new, open
    connection at its end. *)
Definition opens_at_most_one (s s' : State) : Prop :=
  conns s' = conns s
  ∨ ∃ path,
      conns s' = (conns s ++ [ {| conn_path := path; conn_open := true |} ])%list.

(** Every open connection of the store is the one the instance holds. *)
Definition no_stray (s : State) : Prop :=
  ∀ i o, conns s !! i = Some o → conn_open o = true →
         connection (self s) = Some i.

(** The instance holds an open connection on a database on which a query
    of [ItemTable] raises [e]. *)
Definition connected_broken (w : World) (s : State) (e : exn) : Prop :=
  ∃ c o,
    connection (self s) = Some c ∧
    conns s !! c = Some o ∧
    conn_open o = true ∧
    item_table w (conn_path o) = Raise e.

(** The sample host at a moment when the shell (pid 9) is exiting: its
    executable can no longer be resolved. *)
Definition vanishing_world : World := {|
  environ := environ demo_world;
  process_iter := process_iter demo_world;
  proc_username := proc_username demo_world;
  proc_exe := λ p,
    match pid p with 9 => Raise NoSuchProcess | _ => proc_exe demo_world p end;
  realpath := realpath demo_world;
  listdir := listdir demo_world;
  readlink := readlink demo_world;
  sqlite_open := sqlite_open demo_world;
  item_table := item_table demo_world;
|}.

(** The sample host at a moment when the browser has just closed its
    descriptor 4. *)
Definition racy_world : World := {|
  environ := environ demo_world;
  process_iter := process_iter demo_world;
  proc_username := proc_username demo_world;
  proc_exe := proc_exe demo_world;
  realpath := realpath demo_world;
  listdir := listdir demo_world;
  readlink := λ p,
    if String.eqb p "/proc/7/fd/4" then Raise OSError
    else readlink demo_world p;
  sqlite_open := sqlite_open demo_world;
  item_table := item_table demo_world;
|}.

(** The sample host where the first file of [example.com] cannot be opened
    by SQLite. *)
Definition unopenable_world : World := {|
  environ := environ demo_world;
  process_iter := process_iter demo_world;
  proc_username := proc_username demo_world;
  proc_exe := proc_exe demo_world;
  realpath := realpath demo_world;
  listdir := listdir demo_world;
  readlink := readlink demo_world;
  sqlite_open := λ p,
    if String.eqb p demo_db then Raise OperationalError else Ret ();
  item_table := item_table demo_world;
|}.

(** The sample host where the files of the directory are not databases. *)
Definition broken_world : World := {|
  environ := environ demo_world;
  process_iter := process_iter demo_world;
  proc_username := proc_username demo_world;
  proc_exe := proc_exe demo_world;
  realpath := realpath demo_world;
  listdir := listdir demo_world;
  readlink := readlink demo_world;
  sqlite_open := sqlite_open demo_world;
  item_table := λ _, Raise OperationalError;
|}.

(** The sample host with [USER] removed from the environment, seen by a
    caller who may not read the owner of pid 1. *)
Definition locked_nouser_world : World := {|
  environ := ∅;
  process_iter := process_iter locked_world;
  proc_username := proc_username locked_world;
  proc_exe := proc_exe locked_world;
  realpath := realpath locked_world;
  listdir := listdir locked_world;
  readlink := readlink locked_world;
  sqlite_open := sqlite_open locked_world;
  item_table := item_table locked_world;
|}.

(** The processes yielded for the caller's own user are exactly the
    selected ones of the process list. *)
Definition yields_exactly_selected (w : World)
    (flt : string → string → bool) : Prop :=
  (search_processes w flt false).1
  = filter (λ proc, selected w flt proc = true) (process_iter w).

(** With [USER] unset, a search among the caller's own processes raises
    [KeyError] and yields nothing. *)
Definition unset_user_raises_KeyError (w : World)
    (flt : string → string → bool) : Prop :=
  environ w !! "USER" = None →
  search_processes w flt false = ([], Some KeyError).

(** * Properties *)

(** ** Path and string functions on examples *)

Example basename_ex : PosixPath.basename "/usr/lib/chromium/chrome" = "chrome".
Proof. reflexivity. Qed.

Example dirname_ex :
  PosixPath.dirname "/home/u/.config/app/Local Storage/leveldb/LOCK"
  = "/home/u/.config/app/Local Storage/leveldb".
Proof. reflexivity. Qed.

Example dirname_root_ex : PosixPath.dirname "//x" = "//".
Proof. reflexivity. Qed.

Example join_ex : PosixPath.join "/proc/42/fd" "3" = "/proc/42/fd/3".
Proof. reflexivity. Qed.

Example of_nat_ex : PyStr.of_nat 1042 = "1042".
Proof. reflexivity. Qed.

Example endswith_ex :
  PyStr.endswith "https_example.com_0.localstorage" ".localstorage" = true.
Proof. reflexivity. Qed.

(** ** String primitives meet their Python meaning *)

Lemma append_nil_l (s : string) : "" ++ s = s.
Proof. reflexivity. Qed.

Lemma append_cons_l (a : ascii) (s t : string) :
  String a s ++ t = String a (s ++ t).
Proof. reflexivity. Qed.

Lemma startswith_spec (s p : string) :
  PyStr.startswith s p = true ↔ ∃ t, s = p ++ t.
Proof.
  unfold PyStr.startswith. revert s.
  induction p as [|a p IH]; intros s.
  - split; [intros _; by exists s | by destruct s].
  - destruct s as [|b s]; simpl.
    + split; [done | intros [t Ht]; discriminate].
    + destruct (ascii_dec a b) as [->|Hne].
      * rewrite IH. split; intros [t Ht]; exists t;
          rewrite append_cons_l in *; congruence.
      * split; [done | intros [t Ht]; rewrite append_cons_l in Ht; congruence].
Qed.

Lemma endswith_eq (s suf : string) :
  PyStr.endswith s suf =
  String.eqb s suf ||
  match s with EmptyString => false | String _ s' => PyStr.endswith s' suf end.
Proof. by destruct s. Qed.

Lemma contains_eq (needle s : string) :
  PyStr.contains needle s =
  PyStr.startswith s needle ||
  match s with EmptyString => false | String _ s' => PyStr.contains needle s' end.
Proof. by destruct s. Qed.

Lemma endswith_spec (s suf : string) :
  PyStr.endswith s suf = true ↔ ∃ t, s = t ++ suf.
Proof.
  induction s as [|a s IH]; rewrite endswith_eq.
  - rewrite orb_false_r, String.eqb_eq. split.
    + intros <-. by exists "".
    + intros [[|b t] Ht]; [done | discriminate].
  - rewrite orb_true_iff, IH, String.eqb_eq. split.
    + intros [<- | [t ->]]; [by exists "" | by exists (String a t)].
    + intros [[|b t] Ht]; [by left | right].
      rewrite append_cons_l in Ht. exists t. congruence.
Qed.

Lemma contains_spec (needle s : string) :
  PyStr.contains needle s = true ↔ ∃ pre post, s = pre ++ needle ++ post.
Proof.
  induction s as [|a s IH]; rewrite contains_eq.
  - rewrite orb_false_r, startswith_spec. split.
    + intros [t Ht]. by exists "", t.
    + intros [[|b pre] [post Ht]]; [by exists post | discriminate].
  - rewrite orb_true_iff, IH, startswith_spec. split.
    + intros [[t Ht] | (pre & post & ->)].
      * by exists "", t.
      * by exists (String a pre), post.
    + intros [[|b pre] [post Ht]].
      * left. by exists post.
      * right. rewrite append_cons_l in Ht. exists pre, post. congruence.
Qed.

(** ** Process locator *)

Section ProcessLocatorFacts.
Context (w : World).
Implicit Types (flt : string → string → bool) (procs : list Process).

Lemma search_loop_sound flt procs proc :
  proc ∈ (search_loop w flt false procs).1 →
  proc ∈ procs ∧ selected w flt proc = true.
Proof.
  induction procs as [|q rest IH]; simpl; [by intros ?%elem_of_nil|].
  assert (Hrest : proc ∈ (search_loop w flt false rest).1 →
                  proc ∈ q :: rest ∧ selected w flt proc = true).
  { intros [? ?]%IH. split; [apply elem_of_cons; by right | done]. }
  unfold owner_test.
  destruct (proc_username w q) as [name|e] eqn:Hname; simpl;
    [|by intros ?%elem_of_nil].
  destruct (environ w !! "USER") as [user|] eqn:Huser; simpl;
    [|by intros ?%elem_of_nil].
  destruct (String.eqb name user) eqn:Heq; [|done].
  destruct (proc_exe w q) as [p|e] eqn:Hexe.
  - destruct (flt _ _) eqn:Hflt; [|done]. simpl.
    intros [->|Hin]%elem_of_cons; [|by apply Hrest].
    split; [apply elem_of_cons; by left|].
    unfold selected. by rewrite Huser, Hname, Hexe, Heq, Hflt.
  - destruct e; simpl; try (by intros ?%elem_of_nil). done.
Qed.

Lemma search_loop_complete flt procs :
  (search_loop w flt false procs).2 = None →
  (search_loop w flt false procs).1 = filter (λ p, selected w flt p = true) procs.
Proof.
  induction procs as [|q rest IH]; simpl; [done|].
  unfold owner_test. intros Hstop.
  assert (Hsel : selected w flt q =
    match environ w !! "USER", proc_username w q, proc_exe w q with
    | Some user, Ret name, Ret p =>
        String.eqb name user
        && flt (realpath w p) (PosixPath.basename (realpath w p))
    | _, _, _ => false
    end) by done.
  destruct (proc_username w q) as [name|e]; simpl in *; [|done].
  destruct (environ w !! "USER") as [user|]; simpl in *; [|done].
  destruct (String.eqb name user); simpl in *.
  - destruct (proc_exe w q) as [p|e].
    + destruct (flt _ _); simpl in *.
      * rewrite filter_cons_True by done. by rewrite IH.
      * rewrite filter_cons_False by (by rewrite Hsel). by apply IH.
    + rewrite filter_cons_False by (by rewrite Hsel).
      destruct e; simpl in *; try done. by apply IH.
  - rewrite filter_cons_False; [by apply IH|].
    rewrite Hsel. by destruct (proc_exe w q).
Qed.

End ProcessLocatorFacts.

Example search_demo :
  search_processes demo_world is_chrome false = ([ {| pid := 7 |} ], None).
Proof. vm_compute. reflexivity. Qed.

Example search_locked :
  search_processes locked_world accept_all false = ([], Some AccessDenied).
Proof. vm_compute. reflexivity. Qed.

Example search_nouser :
  search_processes nouser_world accept_all false = ([], Some KeyError).
Proof. vm_compute. reflexivity. Qed.

(** C5, as worded, fails: the processes yielded are not always exactly the
    selected ones.  When the owner of pid 1 cannot be read the enumeration
    ends there, and pid 7, which the current user owns and whose executable
    the filter accepts, is never yielded. *)
Lemma selected_process_not_yielded :
  {| pid := 7 |} ∈ process_iter locked_world
  ∧ selected locked_world accept_all {| pid := 7 |} = true
  ∧ search_processes locked_world accept_all false = ([], Some AccessDenied)
  ∧ ¬ yields_exactly_selected locked_world accept_all.
Proof.
  split; [apply elem_of_cons; right; apply elem_of_cons; by left|].
  split; [by vm_compute|]. split; [by vm_compute|].
  unfold yields_exactly_selected. intros Hexact.
  vm_compute in Hexact. discriminate Hexact.
Qed.

(** C5, amended: with [any_user] false, [search_processes] yields only
    processes whose owner is the current user and whose resolved executable
    path and basename the filter accepts; it never yields a process of
    another user; a filter that rejects everything gives no process at all;
    and when the iteration runs to its end without an exception, the
    processes yielded are exactly the selected ones, in the order of the
    process list. *)
Theorem search_processes_own_user (w : World) (flt : string → string → bool) :
  let found := search_processes w flt false in
  (∀ proc, proc ∈ found.1 →
     ∃ user p,
       environ w !! "USER" = Some user ∧
       proc_username w proc = Ret user ∧
       proc_exe w proc = Ret p ∧
       flt (realpath w p) (PosixPath.basename (realpath w p)) = true)
  ∧ (∀ proc user name,
       environ w !! "USER" = Some user →
       proc_username w proc = Ret name →
       name ≠ user →
       proc ∉ found.1)
  ∧ ((∀ exe base, flt exe base = false) → found.1 = [])
  ∧ (found.2 = None →
     found.1 = filter (λ proc, selected w flt proc = true) (process_iter w)).
Proof.
  intros found.
  assert (Hsound : ∀ proc, proc ∈ found.1 →
     ∃ user p,
       environ w !! "USER" = Some user ∧
       proc_username w proc = Ret user ∧
       proc_exe w proc = Ret p ∧
       flt (realpath w p) (PosixPath.basename (realpath w p)) = true).
  { intros proc [_ Hsel]%search_loop_sound. unfold selected in Hsel.
    destruct (environ w !! "USER") as [user|]; [|done].
    destruct (proc_username w proc) as [name|]; [|done].
    destruct (proc_exe w proc) as [p|]; [|done].
    apply andb_true_iff in Hsel as [->%String.eqb_eq Hflt].
    by exists user, p. }
  split; [done|]. split; [|split].
  - intros proc user name Huser Hname Hne Hin.
    destruct (Hsound proc Hin) as (user' & p & Hu & Hn & _). congruence.
  - intros Hrej. apply elem_of_nil_inv. intros proc Hin.
    destruct (Hsound proc Hin) as (user & p & _ & _ & _ & Hflt).
    by rewrite Hrej in Hflt.
  - apply search_loop_complete.
Qed.

Lemma search_processes_own_user_witness :
  (search_processes demo_world is_chrome false).1
    = filter (λ proc, selected demo_world is_chrome proc = true)
        (process_iter demo_world)
  ∧ ({| pid := 1 |} ∉ (search_processes demo_world is_chrome false).1)
  ∧ (search_processes demo_world (λ _ _, false) false).1 = []
  ∧ ∃ user p,
      environ demo_world !! "USER" = Some user ∧
      proc_username demo_world {| pid := 7 |} = Ret user ∧
      proc_exe demo_world {| pid := 7 |} = Ret p ∧
      is_chrome (realpath demo_world p)
        (PosixPath.basename (realpath demo_world p)) = true.
Proof.
  split; [|split; [|split]]; cycle 3.
  - apply (proj1 (search_processes_own_user demo_world is_chrome)).
    vm_compute. apply elem_of_cons. by left.
  - apply (search_processes_own_user demo_world is_chrome). reflexivity.
  - apply (search_processes_own_user demo_world is_chrome)
      with (user := "alice") (name := "root"); [by vm_compute | done | done].
  - apply (search_processes_own_user demo_world (λ _ _, false)). done.
Defined.

(** C6, as worded, fails: [proc.username()] is evaluated outside the [try],
    so when the owner of pid 1 cannot be read the enumeration ends with
    [AccessDenied] instead of going on to pids 7 and 9. *)
Lemma owner_access_denied_not_skipped :
  proc_username locked_world {| pid := 1 |} = Raise AccessDenied
  ∧ search_processes locked_world accept_all false = ([], Some AccessDenied)
  ∧ search_loop locked_world accept_all false
      [ {| pid := 7 |}; {| pid := 9 |} ]
    = ([ {| pid := 7 |}; {| pid := 9 |} ], None)
  ∧ ¬ skips_access_denied locked_world accept_all false.
Proof.
  split; [reflexivity|]. split; [by vm_compute|]. split; [by vm_compute|].
  intros Hskip.
  specialize (Hskip [] [ {| pid := 7 |}; {| pid := 9 |} ] {| pid := 1 |}
                eq_refl (or_introl eq_refl)).
  vm_compute in Hskip. discriminate Hskip.
Qed.

(** C6, amended: a process whose owner test completes and for which
    resolving the executable fails with [AccessDenied] is passed over; the
    enumeration continues and gives what it gives without that process. *)
Theorem exe_access_denied_skipped (w : World) (flt : string → string → bool)
    (any_user : bool) (pre post : list Process) (proc : Process) (b : bool) :
  owner_test w any_user proc = Ret b →
  proc_exe w proc = Raise AccessDenied →
  search_loop w flt any_user (pre ++ proc :: post)%list
  = search_loop w flt any_user (pre ++ post)%list.
Proof.
  intros Hown Hexe. induction pre as [|q pre IH]; simpl.
  - rewrite Hown. destruct b; [by rewrite Hexe | done].
  - by rewrite IH.
Qed.

Lemma exe_access_denied_skipped_witness :
  search_loop demo_world accept_all true
    ([] ++ {| pid := 1 |} :: [ {| pid := 7 |}; {| pid := 9 |} ])%list
  = search_loop demo_world accept_all true
      ([] ++ [ {| pid := 7 |}; {| pid := 9 |} ])%list.
Proof.
  apply (exe_access_denied_skipped demo_world accept_all true [] _ _ true);
    reflexivity.
Defined.

(** C10, as worded, fails: with [USER] unset a call need not raise
    [KeyError].  The owner name of a process is read before the variable, so
    when the owner of the first process cannot be read the call ends with
    [AccessDenied]. *)
Lemma unset_user_other_exception :
  environ locked_nouser_world !! "USER" = None
  ∧ search_processes locked_nouser_world accept_all false
    = ([], Some AccessDenied)
  ∧ ¬ unset_user_raises_KeyError locked_nouser_world accept_all.
Proof.
  split; [reflexivity|]. split; [by vm_compute|].
  intros Hkey. specialize (Hkey eq_refl).
  vm_compute in Hkey. discriminate Hkey.
Qed.

(** C10, amended: the current user is the value of the [USER] environment
    variable, compared with the owner name of each process; when the
    variable is unset no process is ever yielded, and when the process list
    is not empty and the owner name of its first process can be read, the
    iteration raises [KeyError] at that first process. *)
Theorem search_processes_user_unset (w : World) (flt : string → string → bool) :
  (∀ user proc name,
     environ w !! "USER" = Some user →
     proc_username w proc = Ret name →
     owner_test w false proc = Ret (String.eqb name user))
  ∧ (environ w !! "USER" = None →
     (search_processes w flt false).1 = []
     ∧ ∀ proc rest name,
         process_iter w = proc :: rest →
         proc_username w proc = Ret name →
         search_processes w flt false = ([], Some KeyError)).
Proof.
  split.
  - intros user proc name Huser Hname. unfold owner_test.
    by rewrite Hname, Huser.
  - intros Hunset. split.
    + apply elem_of_nil_inv. intros proc [_ Hsel]%search_loop_sound.
      unfold selected in Hsel. by rewrite Hunset in Hsel.
    + intros proc rest name Hprocs Hname. unfold search_processes.
      rewrite Hprocs. simpl. unfold owner_test. by rewrite Hname, Hunset.
Qed.

Lemma search_processes_user_unset_witness :
  owner_test demo_world false {| pid := 7 |} = Ret true
  ∧ search_processes nouser_world accept_all false = ([], Some KeyError).
Proof.
  split.
  - apply (proj1 (search_processes_user_unset demo_world accept_all)
             "alice" _ "alice"); by vm_compute.
  - destruct (search_processes_user_unset nouser_world accept_all) as [_ H].
    destruct (H eq_refl) as [_ H'].
    by apply (H' {| pid := 1 |} [ {| pid := 7 |}; {| pid := 9 |} ] "root").
Defined.

(** ** Finding the storage directory *)

Lemma find_loop_first_match (pre post : list string) (f : string)
    (stop : option exn) :
  Forall (λ g, PyStr.contains "Local Storage" g = false) pre →
  PyStr.contains "Local Storage" f = true →
  find_loop (pre ++ f :: post)%list stop = Ret (Some (PosixPath.dirname f)).
Proof.
  intros Hpre Hf. induction Hpre as [|g pre Hg _ IH]; simpl.
  - by rewrite Hf.
  - by rewrite Hg.
Qed.

Lemma find_loop_no_match (files : list string) (stop : option exn) :
  Forall (λ g, PyStr.contains "Local Storage" g = false) files →
  find_loop files stop = match stop with Some e => Raise e | None => Ret None end.
Proof.
  induction 1 as [|g files Hg _ IH]; simpl; [done|]. by rewrite Hg.
Qed.

(** C7: [find_local_storage] goes through the pathnames that
    [list_open_files] yields, in order, and returns the directory part
    ([os.path.dirname]) of the first one in which ["Local Storage"] occurs;
    when the listing completes and no pathname contains it, the result is
    [None]. *)
Theorem find_local_storage_first_match (w : World) (proc : Process)
    (files : list string) (stop : option exn) :
  list_open_files w proc = (files, stop) →
  (∀ pre f post,
     files = (pre ++ f :: post)%list →
     Forall (λ g, ¬ ∃ a b, g = a ++ "Local Storage" ++ b) pre →
     (∃ a b, f = a ++ "Local Storage" ++ b) →
     find_local_storage w proc = Ret (Some (PosixPath.dirname f)))
  ∧ (Forall (λ g, ¬ ∃ a b, g = a ++ "Local Storage" ++ b) files →
     stop = None →
     find_local_storage w proc = Ret None).
Proof.
  intros Hfiles. unfold find_local_storage. rewrite Hfiles. simpl.
  assert (Hno : ∀ l,
    Forall (λ g, ¬ ∃ a b, g = a ++ "Local Storage" ++ b) l →
    Forall (λ g, PyStr.contains "Local Storage" g = false) l).
  { intros l Hl. eapply Forall_impl; [exact Hl|]. intros g Hg. simpl in Hg.
    destruct (PyStr.contains "Local Storage" g) eqn:E; [|done].
    by apply contains_spec in E. }
  split.
  - intros pre f post -> Hpre Hf%contains_spec.
    by apply find_loop_first_match; [apply Hno|].
  - intros Hall ->. by rewrite find_loop_no_match by by apply Hno.
Qed.

Lemma find_local_storage_first_match_witness :
  find_local_storage demo_world {| pid := 7 |} = Ret (Some demo_dir)
  ∧ find_local_storage demo_world {| pid := 9 |} = Ret None.
Proof.
  split.
  - apply (proj1 (find_local_storage_first_match demo_world {| pid := 7 |}
                    [ "/dev/null"; demo_db; "/tmp/Local Storage copy/x" ] None
                    eq_refl)
             [ "/dev/null" ] demo_db [ "/tmp/Local Storage copy/x" ]).
    + reflexivity.
    + repeat constructor. intros Hc%contains_spec. discriminate Hc.
    + apply contains_spec. reflexivity.
  - apply (proj2 (find_local_storage_first_match demo_world {| pid := 9 |}
                    [ "/dev/pts/0" ] None eq_refl)); [|reflexivity].
    repeat constructor. intros Hc%contains_spec. discriminate Hc.
Defined.

(** ** The accessor *)

Section AccessorFacts.
Context (w : World).
Implicit Types (s : State) (c : conn_ref) (entries : list string).

Lemma connect_held s c :
  connection (self s) = Some c → connect w s = (Ret (Some c), s).
Proof. intros H. unfold connect. run. by rewrite H. Qed.

Lemma connect_unheld s :
  connection (self s) = None →
  connect w s =
  match listdir w (storage (self s)) with
  | Ret entries => connect_loop w entries s
  | Raise e => (Raise e, s)
  end.
Proof.
  intros H. unfold connect. run. rewrite H. run.
  by destruct (listdir w (storage (self s))).
Qed.

Lemma connect_loop_first_match s (pre post : list string) (f : string) :
  Forall (λ g, name_matches (self s) g = false) pre →
  name_matches (self s) f = true →
  connect_loop w (pre ++ f :: post)%list s =
  match sqlite_open w (PosixPath.join (storage (self s)) f) with
  | Ret _ =>
      (Ret (Some (length (conns s))),
       connected_state s (PosixPath.join (storage (self s)) f))
  | Raise e => (Raise e, s)
  end.
Proof.
  intros Hpre Hf. induction Hpre as [|g pre Hg _ IH]; simpl; run.
  - rewrite Hf. unfold sqlite3_connect.
    by destruct (sqlite_open w _).
  - by rewrite Hg.
Qed.

Lemma connect_loop_no_match s entries :
  Forall (λ g, name_matches (self s) g = false) entries →
  connect_loop w entries s = (Ret None, s).
Proof.
  induction 1 as [|g entries Hg _ IH]; simpl; run; [done|]. by rewrite Hg.
Qed.

(** Either [connect] returns [None] or raises and leaves the state as it
    found it, or it returns the connection that the instance now holds. *)
Lemma connect_loop_outcome s entries r s' :
  connect_loop w entries s = (r, s') →
  (s' = s ∧ (r = Ret None ∨ ∃ e, r = Raise e))
  ∨ ∃ c, r = Ret (Some c) ∧ connection (self s') = Some c.
Proof.
  induction entries as [|g entries IH]; simpl; run.
  - intros [= <- <-]. left. split; [done | by left].
  - destruct (name_matches (self s) g); [|done].
    unfold sqlite3_connect. destruct (sqlite_open w _) as [?|e].
    + intros [= <- <-]. right. by eexists.
    + intros [= <- <-]. left. split; [done | right; by exists e].
Qed.

Lemma connect_outcome s r s' :
  connect w s = (r, s') →
  (s' = s ∧ (r = Ret None ∨ ∃ e, r = Raise e))
  ∨ ∃ c, r = Ret (Some c) ∧ connection (self s') = Some c.
Proof.
  destruct (connection (self s)) as [c|] eqn:Hc.
  - rewrite (connect_held _ _ Hc). intros [= <- <-]. right. by exists c.
  - rewrite (connect_unheld _ Hc).
    destruct (listdir w (storage (self s))) as [entries|e].
    + apply connect_loop_outcome.
    + intros [= <- <-]. left. split; [done | right; by exists e].
Qed.

Lemma close_held s c :
  connection (self s) = Some c →
  close s = (Ret (), {| self := with_connection (self s) None;
                        conns := alter closed c (conns s) |}).
Proof. intros H. unfold close. run. by rewrite H. Qed.

Lemma close_unheld s :
  connection (self s) = None → close s = (Ret (), s).
Proof. intros H. unfold close. run. by rewrite H. Qed.

Lemma close_resets s : connection (self (close s).2) = None.
Proof.
  destruct (connection (self s)) as [c|] eqn:Hc.
  - by rewrite (close_held _ _ Hc).
  - by rewrite (close_unheld _ Hc).
Qed.

End AccessorFacts.

Lemma name_matches_spec (this : LocalStorage) (f : string) :
  name_matches this f = true ↔
  (∃ t, f = (proto this ++ "_" ++ site this ++ "_") ++ t)
  ∧ (∃ t, f = t ++ ".localstorage").
Proof.
  unfold name_matches.
  by rewrite andb_true_iff, startswith_spec, endswith_spec.
Qed.

(** C1: with no connection held, [connect] lists the storage directory and
    takes the first entry whose name starts with [proto_site_] and ends with
    [.localstorage]: it opens a connection on that file, stores it in the
    instance and returns it.  When no entry of the directory has such a
    name, [connect] returns [None], raises nothing and changes nothing. *)
Theorem connect_first_match (w : World) (s : State) (entries : list string) :
  connection (self s) = None →
  listdir w (storage (self s)) = Ret entries →
  let pattern (f : string) :=
    (∃ t, f = (proto (self s) ++ "_" ++ site (self s) ++ "_") ++ t)
    ∧ (∃ t, f = t ++ ".localstorage") in
  (∀ pre f post,
     entries = (pre ++ f :: post)%list →
     Forall (λ g, ¬ pattern g) pre →
     pattern f →
     sqlite_open w (PosixPath.join (storage (self s)) f) = Ret () →
     let c := length (conns s) in
     let s' := (connect w s).2 in
     (connect w s).1 = Ret (Some c)
     ∧ connection (self s') = Some c
     ∧ conns s' = (conns s ++
         [ {| conn_path := PosixPath.join (storage (self s)) f;
              conn_open := true |} ])%list
     ∧ storage (self s') = storage (self s)
     ∧ site (self s') = site (self s)
     ∧ proto (self s') = proto (self s))
  ∧ (Forall (λ g, ¬ pattern g) entries → connect w s = (Ret None, s)).
Proof.
  intros Hnone Hlist pattern.
  assert (Hno : ∀ l, Forall (λ g, ¬ pattern g) l →
                     Forall (λ g, name_matches (self s) g = false) l).
  { intros l Hl. eapply Forall_impl; [exact Hl|]. intros g Hg. simpl in Hg.
    destruct (name_matches (self s) g) eqn:E; [|done].
    by apply name_matches_spec in E. }
  rewrite (connect_unheld _ _ Hnone), Hlist. split.
  - intros pre f post -> Hpre Hf%name_matches_spec Hopen.
    rewrite (connect_loop_first_match w s pre post f (Hno _ Hpre) Hf), Hopen.
    by repeat split.
  - intros Hall. by apply connect_loop_no_match, Hno.
Qed.

Lemma connect_first_match_witness :
  (connect demo_world demo_state).1 = Ret (Some 0)
  ∧ conns (connect demo_world demo_state).2
    = [ {| conn_path := demo_db; conn_open := true |} ]
  ∧ connect demo_world nosite_state = (Ret None, nosite_state).
Proof.
  pose proof (connect_first_match demo_world demo_state _ eq_refl eq_refl)
    as [Hhit _].
  pose proof (connect_first_match demo_world nosite_state _ eq_refl eq_refl)
    as [_ Hmiss].
  split; [|split].
  - apply (Hhit [ "http_example.com_0.localstorage" ]
             "https_example.com_0.localstorage"
             [ "https_example.com_1.localstorage" ] eq_refl).
    + repeat constructor. intros Hc%name_matches_spec. discriminate Hc.
    + apply name_matches_spec. reflexivity.
    + reflexivity.
  - apply (Hhit [ "http_example.com_0.localstorage" ]
             "https_example.com_0.localstorage"
             [ "https_example.com_1.localstorage" ] eq_refl).
    + repeat constructor. intros Hc%name_matches_spec. discriminate Hc.
    + apply name_matches_spec. reflexivity.
    + reflexivity.
  - apply Hmiss.
    repeat constructor; intros Hc%name_matches_spec; discriminate Hc.
Defined.

(** *** Reading through a held connection *)

Section ReadFacts.
Context (w : World).
Implicit Types (s : State) (rows : list row) (key : string) (v : pyval).

Lemma read_connected s rows :
  connected_to w s rows → read w s = (Ret (collect rows), s).
Proof.
  intros (c & o & Hc & Ho & Hopen & Hrows).
  unfold read. run. rewrite (connect_held w s c Hc).
  unfold query_ItemTable. run. by rewrite Ho, Hopen, Hrows.
Qed.

Lemma read_key_connected s rows key :
  connected_to w s rows →
  read_key w key s = (Ret (default PyNone (head (select_value key rows))), s).
Proof.
  intros (c & o & Hc & Ho & Hopen & Hrows).
  unfold read_key. run. rewrite (connect_held w s c Hc).
  unfold query_ItemTable. run. rewrite Ho, Hopen, Hrows.
  unfold try_except, fetchone_0.
  by destruct (head (select_value key rows)).
Qed.

Lemma getitem_connected s rows key :
  connected_to w s rows →
  getitem w key s =
  let item := default PyNone (head (select_value key rows)) in
  if pyval_truthy item then (Ret item, s) else (Raise IndexError, s).
Proof.
  intros Hcon. unfold getitem. run.
  rewrite (read_key_connected s rows key Hcon). simpl.
  by destruct (pyval_truthy _).
Qed.

Lemma read_subscript_connected s rows key :
  connected_to w s rows →
  read_subscript w key s =
  match collect rows !! key with
  | Some v => (Ret v, s)
  | None => (Raise KeyError, s)
  end.
Proof.
  intros Hcon. unfold read_subscript. run.
  rewrite (read_connected s rows Hcon).
  by destruct (collect rows !! key).
Qed.

Lemma select_value_cons (r : row) rows key :
  select_value key (r :: rows) =
  if decide (r.1 = key) then r.2 :: select_value key rows
  else select_value key rows.
Proof.
  unfold select_value. rewrite filter_cons. by destruct (decide (r.1 = key)).
Qed.

Lemma elem_of_select_value rows key v :
  v ∈ select_value key rows ↔ (key, v) ∈ rows.
Proof.
  unfold select_value. rewrite list_elem_of_fmap. split.
  - intros ([k v'] & -> & [Hk Hin]%list_elem_of_filter).
    simpl in Hk. by subst k.
  - intros Hin. exists (key, v). split; [done|].
    by apply list_elem_of_filter.
Qed.

Lemma select_value_nil rows key :
  key ∉ rows.*1 → select_value key rows = [].
Proof.
  intros Hnot. apply elem_of_nil_inv. intros v Hv%elem_of_select_value.
  apply Hnot. apply list_elem_of_fmap. by exists (key, v).
Qed.

(** Later assignments to a key overwrite earlier ones: the dictionary
    keeps, for each key, the value of the last row that carries it. *)
Lemma foldl_insert_lookup rows key (values : gmap string pyval) :
  foldl (λ values r, <[r.1 := r.2]> values) values rows !! key =
  match last (select_value key rows) with
  | Some v => Some v
  | None => values !! key
  end.
Proof.
  revert values. induction rows as [|r rows IH]; intros values; simpl; [done|].
  rewrite IH, select_value_cons.
  destruct (decide (r.1 = key)) as [Hk|Hk].
  - rewrite last_cons. destruct (last (select_value key rows)); [done|].
    rewrite <- Hk. apply lookup_insert_eq.
  - destruct (last (select_value key rows)); [done|].
    by apply lookup_insert_ne.
Qed.

Lemma collect_lookup rows key :
  collect rows !! key = last (select_value key rows).
Proof.
  unfold collect. rewrite foldl_insert_lookup, lookup_empty.
  by destruct (last _).
Qed.

Lemma head_last_agree (l : list pyval) :
  (∀ x y, x ∈ l → y ∈ l → x = y) → head l = last l.
Proof.
  destruct l as [|x l]; [done|]. intros Hall. simpl. rewrite last_cons.
  destruct (last l) as [y|] eqn:Hy; [|done].
  f_equal. apply Hall; [apply elem_of_cons; by left|].
  apply elem_of_cons. right. apply last_Some in Hy as [l' ->].
  apply elem_of_app. right. apply elem_of_cons. by left.
Qed.

Lemma select_value_first (pre post : list row) key v :
  key ∉ pre.*1 →
  head (select_value key (pre ++ (key, v) :: post)%list) = Some v.
Proof.
  induction pre as [|r pre IH]; intros Hpre; simpl;
    rewrite select_value_cons; simpl.
  - by rewrite decide_True.
  - rewrite fmap_cons, not_elem_of_cons in Hpre. destruct Hpre as [Hr Hpre].
    rewrite decide_False by done. by apply IH.
Qed.

End ReadFacts.

Lemma demo_connected_to : connected_to demo_world demo_connected demo_rows.
Proof. exists 0, {| conn_path := demo_db; conn_open := true |}. by repeat split. Qed.

Lemma dup_connected_to : connected_to dup_world demo_connected dup_rows.
Proof. exists 0, {| conn_path := demo_db; conn_open := true |}. by repeat split. Qed.

(** C2: when no connection is held and the storage directory has no file
    with a matching name, [connect] returns [None] and [read] raises: it
    calls [execute] on [None], which is an [AttributeError]; the exception
    reaches the caller and the instance is left as it was. *)
Theorem read_without_file (w : World) (s : State) (entries : list string) :
  connection (self s) = None →
  listdir w (storage (self s)) = Ret entries →
  Forall (λ g, name_matches (self s) g = false) entries →
  connect w s = (Ret None, s) ∧ read w s = (Raise AttributeError, s).
Proof.
  intros Hnone Hlist Hall.
  assert (Hcon : connect w s = (Ret None, s)).
  { rewrite (connect_unheld _ _ Hnone), Hlist. by apply connect_loop_no_match. }
  split; [done|]. unfold read. run. by rewrite Hcon.
Qed.

Lemma read_without_file_witness :
  connect demo_world nosite_state = (Ret None, nosite_state)
  ∧ read demo_world nosite_state = (Raise AttributeError, nosite_state).
Proof.
  apply (read_without_file demo_world nosite_state
           [ "http_example.com_0.localstorage";
             "https_example.com_0.localstorage";
             "https_example.com_1.localstorage" ]).
  - reflexivity.
  - reflexivity.
  - repeat constructor.
Defined.

(** The uniqueness of the keys of [ItemTable] matters to the lookups:
    [read] keeps the value of the last row of a key and [read_key] fetches
    the first one, so on a table that carried a key twice [read()["k"]] and
    [read_key("k")] would differ. *)
Lemma duplicate_key_lookups_differ :
  connected_to dup_world demo_connected dup_rows
  ∧ "k" ∈ dup_rows.*1
  ∧ (read_subscript dup_world "k" demo_connected).1 = Ret (PyStr "b")
  ∧ (read_key dup_world "k" demo_connected).1 = Ret (PyStr "a")
  ∧ (read_subscript dup_world "k" demo_connected).1
    ≠ (read_key dup_world "k" demo_connected).1.
Proof.
  split; [apply dup_connected_to|].
  split; [apply elem_of_cons; by left|].
  split; [by vm_compute|]. split; [by vm_compute|].
  vm_compute. intros H. discriminate H.
Qed.

(** The two lookups on a connected accessor: they agree on a key whose rows
    all carry the same value, and differ in what they do on a key that no
    row carries. *)
Lemma lookups_on_connected (w : World) (s : State) (rows : list row)
    (key : string) :
  connected_to w s rows →
  (key ∈ rows.*1 →
   (∀ v v', (key, v) ∈ rows → (key, v') ∈ rows → v = v') →
   ∃ v, (key, v) ∈ rows
        ∧ read_subscript w key s = (Ret v, s)
        ∧ read_key w key s = (Ret v, s))
  ∧ (key ∉ rows.*1 →
     read_key w key s = (Ret PyNone, s)
     ∧ getitem w key s = (Raise IndexError, s)).
Proof.
  intros Hcon. split.
  - intros Hin Hsame.
    apply list_elem_of_fmap in Hin as ([k v0] & Hk & Hin). simpl in Hk. subst k.
    assert (Hagree : head (select_value key rows) = last (select_value key rows)).
    { apply head_last_agree. intros x y Hx%elem_of_select_value
        Hy%elem_of_select_value. by apply Hsame. }
    destruct (head (select_value key rows)) as [v|] eqn:Hhead.
    + exists v. split.
      { apply elem_of_select_value. by apply head_Some_elem_of. }
      rewrite (read_subscript_connected w s rows key Hcon), collect_lookup,
        <- Hagree.
      by rewrite (read_key_connected w s rows key Hcon), Hhead.
    + apply elem_of_select_value in Hin. apply head_None in Hhead.
      rewrite Hhead in Hin. by apply elem_of_nil in Hin.
  - intros Hnot.
    rewrite (getitem_connected w s rows key Hcon),
      (read_key_connected w s rows key Hcon),
      (select_value_nil rows key Hnot).
    done.
Qed.

Lemma unique_key_value (rows : list row) (key : string) (v v' : pyval) :
  NoDup rows.*1 → (key, v) ∈ rows → (key, v') ∈ rows → v = v'.
Proof.
  induction rows as [|[k u] rows IH]; [by intros _ ?%elem_of_nil|].
  rewrite fmap_cons, NoDup_cons. simpl. intros [Hk Hnd].
  assert (Hfresh : ∀ x, (key, x) ∈ rows → k ≠ key).
  { intros x Hx ->. apply Hk. apply list_elem_of_fmap. by exists (key, x). }
  intros Hv Hv'.
  apply elem_of_cons in Hv as [Hv|Hv]; apply elem_of_cons in Hv' as [Hv'|Hv'].
  - congruence.
  - injection Hv as -> _. by destruct (Hfresh _ Hv').
  - injection Hv' as -> _. by destruct (Hfresh _ Hv).
  - by apply IH.
Qed.

(** C3: on a connected accessor whose [ItemTable] keeps its keys unique (as
    the browser's schema does), for every key: if the key is present,
    [read()[key]] and [read_key(key)] both return the value of its row; if
    the key is absent, [read_key(key)] returns [None] without raising while
    [self[key]] raises [IndexError]. *)
Theorem lookups_agree_unique_keys (w : World) (s : State) (rows : list row)
    (key : string) :
  connected_to w s rows →
  NoDup rows.*1 →
  (key ∈ rows.*1 →
   ∃ v, (key, v) ∈ rows
        ∧ read_subscript w key s = (Ret v, s)
        ∧ read_key w key s = (Ret v, s))
  ∧ (∀ v, (key, v) ∈ rows →
       read_subscript w key s = (Ret v, s)
       ∧ read_key w key s = (Ret v, s))
  ∧ (key ∉ rows.*1 →
     read_key w key s = (Ret PyNone, s)
     ∧ getitem w key s = (Raise IndexError, s)).
Proof.
  intros Hcon Hnd.
  destruct (lookups_on_connected w s rows key Hcon) as [Hpresent Habsent].
  assert (Hsame : ∀ v v', (key, v) ∈ rows → (key, v') ∈ rows → v = v')
    by (intros v v'; by apply unique_key_value).
  split; [|split; [|done]].
  - intros Hin. by apply Hpresent.
  - intros v Hv.
    destruct Hpresent as (v' & Hv' & Hread & Hkey); [|done|].
    { apply list_elem_of_fmap. by exists (key, v). }
    by rewrite (Hsame v v' Hv Hv').
Qed.

Lemma lookups_agree_unique_keys_witness :
  (read_subscript demo_world "theme" demo_connected
     = (Ret (PyStr "dark"), demo_connected)
   ∧ read_key demo_world "theme" demo_connected
     = (Ret (PyStr "dark"), demo_connected))
  ∧ read_key demo_world "missing" demo_connected = (Ret PyNone, demo_connected)
  ∧ getitem demo_world "missing" demo_connected
    = (Raise IndexError, demo_connected).
Proof.
  assert (Hnd : NoDup demo_rows.*1).
  { apply (bool_decide_unpack _). by vm_compute. }
  destruct (lookups_agree_unique_keys demo_world demo_connected demo_rows
              "theme" demo_connected_to Hnd) as (_ & Hpresent & _).
  destruct (lookups_agree_unique_keys demo_world demo_connected demo_rows
              "missing" demo_connected_to Hnd) as (_ & _ & Habsent).
  split.
  - apply Hpresent. apply elem_of_cons. by left.
  - apply Habsent. apply (bool_decide_unpack _). by vm_compute.
Defined.

(** C4: [connect] is idempotent.  A second call made right after a first
    one gives the same result and leaves the state where the first call left
    it; and once a call has returned a connection, any later call returns
    that same reference, whatever the directory then contains, without
    listing the directory and without opening anything. *)
Theorem connect_idempotent :
  (∀ (w : World) (s : State),
     connect w (connect w s).2 = connect w s)
  ∧ (∀ (w : World) (s s' : State) (c : conn_ref),
       connect w s = (Ret (Some c), s') →
       ∀ w' : World, connect w' s' = (Ret (Some c), s')).
Proof.
  split.
  - intros w s. destruct (connect w s) as [r s'] eqn:E. simpl.
    destruct (connect_outcome w s r s' E) as [[-> _]|(c & -> & Hc)]; [done|].
    by apply connect_held.
  - intros w s s' c E w'.
    destruct (connect_outcome w s _ s' E) as [[_ [?|[e ?]]]|(c' & [= ->] & Hc)];
      [done | done |].
    by apply connect_held.
Qed.

Lemma connect_idempotent_witness :
  connect demo_world (connect demo_world demo_state).2
    = connect demo_world demo_state
  ∧ connect nouser_world demo_connected = (Ret (Some 0), demo_connected).
Proof.
  split.
  - apply (proj1 connect_idempotent).
  - apply (proj2 connect_idempotent demo_world demo_state demo_connected 0).
    reflexivity.
Defined.

(** C8: the accessor is either disconnected ([connection] is [None]) or
    connected.  [close] on a held connection closes it and resets the
    attribute to [None]; with nothing open it does nothing; closing twice is
    closing once; after [close], [is_connected] is false, and the next
    [connect] lists the directory again and opens a new connection on the
    first matching file. *)
Theorem connection_lifecycle :
  (∀ s : State,
     is_connected s = (Ret (bool_decide (is_Some (connection (self s)))), s))
  ∧ (∀ (s : State) (c : conn_ref),
       connection (self s) = Some c →
       close s = (Ret (), {| self := with_connection (self s) None;
                             conns := alter closed c (conns s) |}))
  ∧ (∀ s : State, connection (self s) = None → close s = (Ret (), s))
  ∧ (∀ s : State, close (close s).2 = (Ret (), (close s).2))
  ∧ (∀ s : State, is_connected (close s).2 = (Ret false, (close s).2))
  ∧ (∀ (w : World) (s : State),
       connect w (close s).2 =
       match listdir w (storage (self s)) with
       | Ret entries => connect_loop w entries (close s).2
       | Raise e => (Raise e, (close s).2)
       end)
  ∧ (∀ (w : World) (s : State) (c : conn_ref) (o : Connection)
       (pre post : list string) (f : string),
       connection (self s) = Some c →
       conns s !! c = Some o →
       listdir w (storage (self s)) = Ret (pre ++ f :: post)%list →
       Forall (λ g, name_matches (self s) g = false) pre →
       name_matches (self s) f = true →
       sqlite_open w (PosixPath.join (storage (self s)) f) = Ret () →
       ∃ c', (connect w (close s).2).1 = Ret (Some c')
             ∧ c' ≠ c
             ∧ conns (connect w (close s).2).2 !! c = Some (closed o)
             ∧ conns (connect w (close s).2).2 !! c'
               = Some {| conn_path := PosixPath.join (storage (self s)) f;
                         conn_open := true |}
             ∧ connection (self (connect w (close s).2).2) = Some c').
Proof.
  assert (Hstorage : ∀ s, storage (self (close s).2) = storage (self s)).
  { intros s. destruct (connection (self s)) as [c|] eqn:Hc.
    - by rewrite (close_held _ _ Hc).
    - by rewrite (close_unheld _ Hc). }
  split; [done|]. split; [apply close_held|]. split; [apply close_unheld|].
  split; [|split; [|split]].
  - intros s. apply close_unheld, close_resets.
  - intros s. unfold is_connected. run. by rewrite close_resets.
  - intros w s. by rewrite (connect_unheld w _ (close_resets s)), Hstorage.
  - intros w s c o pre post f Hc Ho Hlist Hpre Hf Hopen.
    rewrite (connect_unheld w _ (close_resets s)), Hstorage, Hlist.
    rewrite (close_held _ _ Hc). simpl.
    rewrite connect_loop_first_match by done. simpl. rewrite Hopen. simpl.
    rewrite length_alter. exists (length (conns s)).
    pose proof (lookup_lt_Some _ _ _ Ho) as Hlt.
    split; [done|]. split; [lia|]. split; [|split; [|done]].
    + rewrite lookup_app_l by (by rewrite length_alter).
      by rewrite list_lookup_alter_eq, Ho.
    + rewrite lookup_app_r by (by rewrite length_alter).
      by rewrite length_alter, Nat.sub_diag.
Qed.

Lemma connection_lifecycle_witness :
  close demo_connected
    = (Ret (), {| self := init "example.com" demo_dir None;
                  conns := [ {| conn_path := demo_db; conn_open := false |} ] |})
  ∧ close demo_state = (Ret (), demo_state)
  ∧ ∃ c', (connect demo_world (close demo_connected).2).1 = Ret (Some c')
          ∧ c' ≠ 0
          ∧ conns (connect demo_world (close demo_connected).2).2 !! 0
            = Some {| conn_path := demo_db; conn_open := false |}
          ∧ conns (connect demo_world (close demo_connected).2).2 !! c'
            = Some {| conn_path := demo_db; conn_open := true |}
          ∧ connection (self (connect demo_world (close demo_connected).2).2)
            = Some c'.
Proof.
  destruct connection_lifecycle as (_ & Hheld & Hunheld & _ & _ & _ & Hagain).
  split; [|split].
  - apply (Hheld demo_connected 0). reflexivity.
  - apply (Hunheld demo_state). reflexivity.
  - apply (Hagain demo_world demo_connected 0
             {| conn_path := demo_db; conn_open := true |}
             [ "http_example.com_0.localstorage" ]
             [ "https_example.com_1.localstorage" ]
             "https_example.com_0.localstorage");
      try reflexivity.
    repeat constructor.
Defined.

(** C9: [self[key]] tests the truth value of what [read_key] returns.  When
    the first row of the key carries a falsy value (the empty string and the
    empty bytes are falsy), [read_key] returns that value and [self[key]]
    raises [IndexError], as it does for a key that is missing. *)
Theorem getitem_falsy_value (w : World) (s : State) (rows : list row)
    (key : string) :
  connected_to w s rows →
  (∀ (pre post : list row) (v : pyval),
     rows = (pre ++ (key, v) :: post)%list →
     key ∉ pre.*1 →
     pyval_truthy v = false →
     read_key w key s = (Ret v, s)
     ∧ getitem w key s = (Raise IndexError, s))
  ∧ (key ∉ rows.*1 → getitem w key s = (Raise IndexError, s))
  ∧ pyval_truthy (PyStr "") = false
  ∧ pyval_truthy (PyBytes []) = false.
Proof.
  intros Hcon. split; [|split; [|done]].
  - intros pre post v -> Hpre Hfalsy.
    rewrite (getitem_connected w s _ key Hcon),
      (read_key_connected w s _ key Hcon),
      (select_value_first pre post key v Hpre).
    simpl. by rewrite Hfalsy.
  - intros Hnot.
    rewrite (getitem_connected w s rows key Hcon),
      (select_value_nil rows key Hnot).
    done.
Qed.

Lemma getitem_falsy_value_witness :
  (read_key demo_world "draft" demo_connected = (Ret (PyStr ""), demo_connected)
   ∧ getitem demo_world "draft" demo_connected
     = (Raise IndexError, demo_connected))
  ∧ (read_key demo_world "blob" demo_connected
       = (Ret (PyBytes []), demo_connected)
     ∧ getitem demo_world "blob" demo_connected
       = (Raise IndexError, demo_connected))
  ∧ getitem demo_world "missing" demo_connected
    = (Raise IndexError, demo_connected).
Proof.
  split; [|split].
  - apply (proj1 (getitem_falsy_value demo_world demo_connected demo_rows
                    "draft" demo_connected_to)
             [ ("theme", PyStr "dark") ] [ ("blob", PyBytes []) ]).
    + reflexivity.
    + apply (bool_decide_unpack _). by vm_compute.
    + reflexivity.
  - apply (proj1 (getitem_falsy_value demo_world demo_connected demo_rows
                    "blob" demo_connected_to)
             [ ("theme", PyStr "dark"); ("draft", PyStr "") ] []).
    + reflexivity.
    + apply (bool_decide_unpack _). by vm_compute.
    + reflexivity.
  - apply (getitem_falsy_value demo_world demo_connected demo_rows
             "missing" demo_connected_to).
    apply (bool_decide_unpack _). by vm_compute.
Defined.


(** * Further properties of the process locator *)

Section SearchFacts.
Context (w : World).
Implicit Types (flt : string → string → bool) (procs : list Process).

(** Enumerating a list of processes in two parts: the second part is only
    reached when the first one ends normally. *)
Lemma search_loop_app flt (any_user : bool) (pre rest : list Process) :
  search_loop w flt any_user (pre ++ rest)%list =
  match (search_loop w flt any_user pre).2 with
  | None => (((search_loop w flt any_user pre).1
              ++ (search_loop w flt any_user rest).1)%list,
             (search_loop w flt any_user rest).2)
  | Some e => search_loop w flt any_user pre
  end.
Proof.
  induction pre as [|q pre IH]; simpl.
  - by destruct (search_loop w flt any_user rest).
  - destruct (owner_test w any_user q) as [[|]|e]; [|done|done].
    destruct (proc_exe w q) as [p|e].
    + destruct (flt _ _); [|done]. simpl. rewrite IH.
      by destruct ((search_loop w flt any_user pre).2).
    + by destruct e.
Qed.

(** The enumeration depends on the filter only through its values on the
    pairs of a path and the basename of that path. *)
Lemma search_loop_ext flt flt' (any_user : bool) procs :
  (∀ exe, flt exe (PosixPath.basename exe) = flt' exe (PosixPath.basename exe)) →
  search_loop w flt any_user procs = search_loop w flt' any_user procs.
Proof.
  intros Hext. induction procs as [|q procs IH]; simpl; [done|].
  destruct (owner_test w any_user q) as [[|]|e]; [|done|done].
  destruct (proc_exe w q) as [p|e]; [|by destruct e].
  by rewrite Hext, IH.
Qed.

Lemma search_loop_sublist flt (any_user : bool) procs :
  (search_loop w flt any_user procs).1 `sublist_of` procs.
Proof.
  induction procs as [|q procs IH]; simpl; [done|].
  destruct (owner_test w any_user q) as [[|]|e];
    [|by apply sublist_cons|apply sublist_nil_l].
  destruct (proc_exe w q) as [p|e].
  - destruct (flt _ _); simpl; [by apply sublist_skip | by apply sublist_cons].
  - destruct e; simpl; try apply sublist_nil_l. by apply sublist_cons.
Qed.

Lemma search_loop_any_sound flt procs proc :
  proc ∈ (search_loop w flt true procs).1 → accepted w flt proc = true.
Proof.
  induction procs as [|q rest IH]; simpl; [by intros ?%elem_of_nil|].
  unfold accepted in *. destruct (proc_exe w q) as [p|e] eqn:Hexe.
  - destruct (flt _ _) eqn:Hflt; [|done]. simpl.
    intros [->|Hin]%elem_of_cons; [|by apply IH]. by rewrite Hexe.
  - destruct e; simpl; try (by intros ?%elem_of_nil). done.
Qed.

Lemma search_loop_any_complete flt procs :
  (search_loop w flt true procs).2 = None →
  (search_loop w flt true procs).1
  = filter (λ proc, accepted w flt proc = true) procs.
Proof.
  induction procs as [|q rest IH]; simpl; [done|].
  intros Hstop.
  assert (Hacc : accepted w flt q =
    match proc_exe w q with
    | Ret p => flt (realpath w p) (PosixPath.basename (realpath w p))
    | Raise _ => false
    end) by done.
  destruct (proc_exe w q) as [p|e].
  - destruct (flt _ _); simpl in *.
    + rewrite filter_cons_True by done. by rewrite IH.
    + rewrite filter_cons_False by (by rewrite Hacc). by apply IH.
  - rewrite filter_cons_False by (by rewrite Hacc).
    destruct e; simpl in *; try done. by apply IH.
Qed.

Lemma search_loop_any_indep (w' : World) flt procs :
  (∀ proc, proc_exe w' proc = proc_exe w proc) →
  (∀ p, realpath w' p = realpath w p) →
  search_loop w' flt true procs = search_loop w flt true procs.
Proof.
  intros Hexe Hreal. induction procs as [|q rest IH]; simpl; [done|].
  rewrite Hexe. destruct (proc_exe w q) as [p|e]; [|by destruct e; rewrite ?IH].
  by rewrite Hreal, IH.
Qed.

End SearchFacts.

(** X1: whatever the flag, [search_processes] yields processes of the
    process list, each at most as often as it is listed and in the order
    of the list. *)
Theorem search_processes_sublist (w : World) (flt : string → string → bool)
    (any_user : bool) :
  (search_processes w flt any_user).1 `sublist_of` process_iter w.
Proof. apply search_loop_sublist. Qed.

(** X2: with [any_user] true neither the owner of a process nor the
    environment is consulted.  Every process yielded has an executable that
    resolves and that the filter accepts; when the iteration runs to its
    end the processes yielded are exactly those; and the result is the same
    in any world with the same process list, executables and symlinks, for
    instance one where [USER] is unset. *)
Theorem search_processes_any_user (w : World) (flt : string → string → bool) :
  let found := search_processes w flt true in
  (∀ proc, proc ∈ found.1 →
     ∃ p, proc_exe w proc = Ret p
          ∧ flt (realpath w p) (PosixPath.basename (realpath w p)) = true)
  ∧ (found.2 = None →
     found.1 = filter (λ proc, accepted w flt proc = true) (process_iter w))
  ∧ (∀ w' : World,
       process_iter w' = process_iter w →
       (∀ proc, proc_exe w' proc = proc_exe w proc) →
       (∀ p, realpath w' p = realpath w p) →
       search_processes w' flt true = found).
Proof.
  intros found. split; [|split].
  - intros proc Hacc%search_loop_any_sound. unfold accepted in Hacc.
    destruct (proc_exe w proc) as [p|]; [|done]. by exists p.
  - apply search_loop_any_complete.
  - intros w' Hprocs Hexe Hreal. unfold found, search_processes.
    rewrite Hprocs. by apply search_loop_any_indep.
Qed.

Lemma search_processes_any_user_witness :
  search_processes nouser_world accept_all true
    = ([ {| pid := 7 |}; {| pid := 9 |} ], None)
  ∧ (search_processes demo_world accept_all true).1
    = filter (λ proc, accepted demo_world accept_all proc = true)
        (process_iter demo_world)
  ∧ ∃ p, proc_exe demo_world {| pid := 7 |} = Ret p
         ∧ accept_all (realpath demo_world p)
             (PosixPath.basename (realpath demo_world p)) = true.
Proof.
  destruct (search_processes_any_user demo_world accept_all)
    as (Hsound & Hexact & Hindep).
  split; [|split].
  - by apply (Hindep nouser_world).
  - by apply Hexact.
  - apply Hsound. vm_compute. apply elem_of_cons. by left.
Defined.

(** X3: only [AccessDenied] raised by [proc.exe()] is passed over.  At the
    first process where the owner test raises, or where the owner test
    succeeds and [proc.exe()] raises another exception, the enumeration ends
    with that exception; the processes yielded before it stay yielded and no
    later process is looked at. *)
Theorem search_processes_aborts (w : World) (flt : string → string → bool)
    (any_user : bool) (pre post : list Process) (proc : Process) (e : exn) :
  process_iter w = (pre ++ proc :: post)%list →
  (search_loop w flt any_user pre).2 = None →
  (owner_test w any_user proc = Raise e
   ∨ (owner_test w any_user proc = Ret true
      ∧ proc_exe w proc = Raise e ∧ e ≠ AccessDenied)) →
  search_processes w flt any_user = ((search_loop w flt any_user pre).1, Some e).
Proof.
  intros Hprocs Hpre Hfail. unfold search_processes.
  rewrite Hprocs, search_loop_app, Hpre. simpl.
  destruct Hfail as [Hown|(Hown & Hexe & Hne)]; rewrite Hown.
  - simpl. by rewrite app_nil_r.
  - rewrite Hexe. destruct e; simpl; try (by rewrite app_nil_r). done.
Qed.

Lemma search_processes_aborts_witness :
  search_processes vanishing_world accept_all false
  = ([ {| pid := 7 |} ], Some NoSuchProcess).
Proof.
  apply (search_processes_aborts vanishing_world accept_all false
           [ {| pid := 1 |}; {| pid := 7 |} ] [] {| pid := 9 |} NoSuchProcess).
  - reflexivity.
  - by vm_compute.
  - right. split; [by vm_compute|]. split; [reflexivity | discriminate].
Defined.

(** ** Paths *)

Lemma substring_whole (s : string) : String.substring 0 (String.length s) s = s.
Proof. induction s as [|a s IH]; simpl; [done | by rewrite IH]. Qed.

Lemma slice_from_0 (s : string) : PyStr.slice_from 0 s = s.
Proof. unfold PyStr.slice_from. rewrite Nat.sub_0_r. apply substring_whole. Qed.

Lemma slice_to_0 (s : string) : PyStr.slice_to 0 s = "".
Proof. by destruct s. Qed.

Lemma contains_char_cons (c a : ascii) (r : string) :
  PyStr.contains (String c "") (String a r) =
  (if ascii_dec c a then true else false) || PyStr.contains (String c "") r.
Proof.
  rewrite contains_eq. unfold PyStr.startswith. simpl.
  destruct (ascii_dec c a); [by destruct r | done].
Qed.

(** Cutting [p] one past the last [c]: the two slices make up [p], the
    second one has no [c], and the first one is empty when [p] has no [c]. *)
Lemma rfind_split (c : ascii) (p : string) :
  p = PyStr.slice_to (PyStr.rfind_succ c p) p
      ++ PyStr.slice_from (PyStr.rfind_succ c p) p
  ∧ PyStr.contains (String c "") (PyStr.slice_from (PyStr.rfind_succ c p) p)
    = false
  ∧ (PyStr.rfind_succ c p = 0 → PyStr.contains (String c "") p = false).
Proof.
  induction p as [|a r (Hcat & Hno & Hzero)].
  - by repeat split.
  - simpl PyStr.rfind_succ. destruct (PyStr.rfind_succ c r) as [|k] eqn:Hk.
    + specialize (Hzero eq_refl). destruct (Ascii.eqb_spec a c) as [->|Hne].
      * change (PyStr.slice_from 1 (String c r)) with (PyStr.slice_from 0 r).
        rewrite slice_from_0. split; [|by split].
        change (PyStr.slice_to 1 (String c r))
          with (String c (PyStr.slice_to 0 r)).
        by rewrite slice_to_0.
      * rewrite slice_to_0, slice_from_0. split; [done|].
        assert (PyStr.contains (String c "") (String a r) = false).
        { rewrite contains_char_cons, Hzero.
          by destruct (ascii_dec c a) as [->|]. }
        by split.
    + change (PyStr.slice_from (S (S k)) (String a r))
        with (PyStr.slice_from (S k) r).
      change (PyStr.slice_to (S (S k)) (String a r))
        with (String a (PyStr.slice_to (S k) r)).
      split; [|by split]. rewrite append_cons_l. by f_equal.
Qed.

Lemma rstrip_prefix (c : ascii) (s : string) : ∃ t, s = PyStr.rstrip c s ++ t.
Proof.
  induction s as [|a r [t Ht]]; [by exists ""|].
  simpl. destruct (PyStr.rstrip c r) as [|b r0].
  - destruct (Ascii.eqb a c); [by exists (String a r)|].
    exists r. by rewrite append_cons_l.
  - exists t. rewrite append_cons_l. by f_equal.
Qed.

Lemma basename_suffix (p : string) :
  PyStr.endswith p (PosixPath.basename p) = true.
Proof.
  apply endswith_spec. eexists. unfold PosixPath.basename.
  apply (rfind_split PosixPath.sep p).
Qed.

Lemma basename_no_sep (p : string) :
  PyStr.contains "/" (PosixPath.basename p) = false.
Proof. apply (rfind_split PosixPath.sep p). Qed.

Lemma dirname_prefix (p : string) :
  PyStr.startswith p (PosixPath.dirname p) = true.
Proof.
  apply startswith_spec. unfold PosixPath.dirname.
  destruct (rfind_split PosixPath.sep p) as [Hcat _].
  set (head := PyStr.slice_to (PyStr.rfind_succ PosixPath.sep p) p) in *.
  destruct (PyStr.truthy head && negb (PyStr.all_char PosixPath.sep head)).
  - destruct (rstrip_prefix PosixPath.sep head) as [t Ht].
    exists (t ++ PyStr.slice_from (PyStr.rfind_succ PosixPath.sep p) p).
    rewrite Hcat at 1. rewrite Ht at 1.
    generalize (PyStr.rstrip PosixPath.sep head).
    intros u. induction u as [|a u IH]; [done|].
    rewrite !append_cons_l. by f_equal.
  - by eexists.
Qed.

Lemma search_loop_ext_listed (w : World) (flt flt' : string → string → bool)
    (any_user : bool) (procs : list Process) :
  (∀ proc p,
     proc ∈ procs →
     proc_exe w proc = Ret p →
     flt (realpath w p) (PosixPath.basename (realpath w p))
     = flt' (realpath w p) (PosixPath.basename (realpath w p))) →
  search_loop w flt any_user procs = search_loop w flt' any_user procs.
Proof.
  induction procs as [|q procs IH]; intros Hext; simpl; [done|].
  assert (Hrest : search_loop w flt any_user procs
                  = search_loop w flt' any_user procs).
  { apply IH. intros proc p Hin. apply Hext. apply elem_of_cons. by right. }
  destruct (owner_test w any_user q) as [[|]|e]; [|done|done].
  destruct (proc_exe w q) as [p|e] eqn:Hexe; [|by destruct e].
  rewrite (Hext q p); [by rewrite Hrest | apply elem_of_cons; by left | done].
Qed.

(** X4: the filter is called as [process_filter(exe, os.path.basename(exe))]
    on the resolved executables of the listed processes, and on nothing
    else: two filters that take the same values on those pairs give the
    same enumeration.  The second argument of such a call is a suffix of
    the first and contains no ['/']. *)
Theorem filter_called_on_basename (w : World)
    (flt flt' : string → string → bool) (any_user : bool) :
  ((∀ proc p,
      proc ∈ process_iter w →
      proc_exe w proc = Ret p →
      flt (realpath w p) (PosixPath.basename (realpath w p))
      = flt' (realpath w p) (PosixPath.basename (realpath w p))) →
   search_processes w flt any_user = search_processes w flt' any_user)
  ∧ (∀ exe,
       PyStr.endswith exe (PosixPath.basename exe) = true
       ∧ PyStr.contains "/" (PosixPath.basename exe) = false).
Proof.
  split.
  - apply search_loop_ext_listed.
  - intros exe. split; [apply basename_suffix | apply basename_no_sep].
Qed.

Lemma filter_called_on_basename_witness :
  search_processes demo_world is_chrome false
  = search_processes demo_world
      (λ exe base, String.eqb exe "/usr/lib/chromium/chrome") false.
Proof.
  apply (proj1 (filter_called_on_basename demo_world is_chrome
                  (λ exe base, String.eqb exe "/usr/lib/chromium/chrome")
                  false)).
  intros proc p Hin Hexe.
  repeat (apply elem_of_cons in Hin as [->|Hin]);
    [discriminate Hexe | injection Hexe as <- | injection Hexe as <-
     | by apply elem_of_nil in Hin]; reflexivity.
Defined.

(** ** Open files and the storage directory *)

Section OpenFilesFacts.
Context (w : World).

Lemma readlink_loop_all (fdir : string) (names targets : list string) :
  Forall2 (λ n t, readlink w (PosixPath.join fdir n) = Ret t) names targets →
  readlink_loop w fdir names = (targets, None).
Proof.
  induction 1 as [|n t names targets Hn _ IH]; simpl; [done|].
  by rewrite Hn, IH.
Qed.

Lemma readlink_loop_fail (fdir : string) (pre post targets : list string)
    (n : string) (e : exn) :
  Forall2 (λ n t, readlink w (PosixPath.join fdir n) = Ret t) pre targets →
  readlink w (PosixPath.join fdir n) = Raise e →
  readlink_loop w fdir (pre ++ n :: post)%list = (targets, Some e).
Proof.
  intros Hpre Hn. induction Hpre as [|m t pre targets Hm _ IH]; simpl.
  - by rewrite Hn.
  - by rewrite Hm, IH.
Qed.

Lemma find_loop_inv (files : list string) (stop : option exn) :
  match find_loop files stop with
  | Ret (Some d) =>
      ∃ f, f ∈ files ∧ PyStr.contains "Local Storage" f = true
           ∧ d = PosixPath.dirname f
  | Ret None =>
      stop = None ∧ Forall (λ f, PyStr.contains "Local Storage" f = false) files
  | Raise e =>
      stop = Some e
      ∧ Forall (λ f, PyStr.contains "Local Storage" f = false) files
  end.
Proof.
  induction files as [|f files IH]; simpl.
  - by destruct stop.
  - destruct (PyStr.contains "Local Storage" f) eqn:Hf.
    + exists f. split; [apply elem_of_cons; by left | done].
    + destruct (find_loop files stop) as [[d|]|e].
      * destruct IH as (g & Hg & Hc & ->). exists g.
        split; [apply elem_of_cons; by right | done].
      * destruct IH as [-> Hall]. split; [done | by constructor].
      * destruct IH as [-> Hall]. split; [done | by constructor].
Qed.

End OpenFilesFacts.

(** X5: [list_open_files] yields the target of every entry of
    [/proc/<pid>/fd], in the order of the listing.  A failure is not
    swallowed: when the directory cannot be listed nothing is yielded and the
    exception is raised, and when reading a link fails the targets of the
    entries before it have been yielded and the exception is raised. *)
Theorem list_open_files_spec (w : World) (proc : Process) :
  let fdir := "/proc/" ++ PyStr.of_nat (pid proc) ++ "/fd" in
  (∀ e, listdir w fdir = Raise e → list_open_files w proc = ([], Some e))
  ∧ (∀ names targets,
       listdir w fdir = Ret names →
       Forall2 (λ n t, readlink w (PosixPath.join fdir n) = Ret t)
         names targets →
       list_open_files w proc = (targets, None))
  ∧ (∀ pre n post targets e,
       listdir w fdir = Ret (pre ++ n :: post)%list →
       Forall2 (λ n t, readlink w (PosixPath.join fdir n) = Ret t)
         pre targets →
       readlink w (PosixPath.join fdir n) = Raise e →
       list_open_files w proc = (targets, Some e)).
Proof.
  intros fdir. unfold list_open_files. fold fdir. split; [|split].
  - by intros e ->.
  - intros names targets -> Hall. by apply readlink_loop_all.
  - intros pre n post targets e -> Hpre Hn. by apply readlink_loop_fail.
Qed.

Lemma list_open_files_spec_witness :
  list_open_files demo_world {| pid := 1 |} = ([], Some OSError)
  ∧ list_open_files demo_world {| pid := 7 |}
    = ([ "/dev/null"; demo_db; "/tmp/Local Storage copy/x" ], None)
  ∧ list_open_files racy_world {| pid := 7 |}
    = ([ "/dev/null"; demo_db ], Some OSError).
Proof.
  split; [|split].
  - by apply (proj1 (list_open_files_spec demo_world {| pid := 1 |})).
  - apply (proj1 (proj2 (list_open_files_spec demo_world {| pid := 7 |}))
             [ "0"; "3"; "4" ]); [reflexivity|].
    by repeat constructor.
  - apply (proj2 (proj2 (list_open_files_spec racy_world {| pid := 7 |}))
             [ "0"; "3" ] "4" []); [reflexivity | | reflexivity].
    by repeat constructor.
Defined.

(** X6: what [find_local_storage] returns tells what it saw.  A directory
    is the [dirname] of an open file whose path contains ["Local Storage"],
    and is a prefix of that path; [None] means that the listing completed
    and no path contained it; and an exception is the one that ended the
    listing, before any path contained it. *)
Theorem find_local_storage_inv (w : World) (proc : Process) :
  let files := list_open_files w proc in
  (∀ d, find_local_storage w proc = Ret (Some d) →
     ∃ f, f ∈ files.1
          ∧ PyStr.contains "Local Storage" f = true
          ∧ d = PosixPath.dirname f
          ∧ PyStr.startswith f d = true)
  ∧ (find_local_storage w proc = Ret None →
     files.2 = None
     ∧ Forall (λ f, PyStr.contains "Local Storage" f = false) files.1)
  ∧ (∀ e, find_local_storage w proc = Raise e →
     files.2 = Some e
     ∧ Forall (λ f, PyStr.contains "Local Storage" f = false) files.1).
Proof.
  intros files. unfold find_local_storage. fold files.
  pose proof (find_loop_inv files.1 files.2) as Hinv.
  split; [|split].
  - intros d Hd. rewrite Hd in Hinv. destruct Hinv as (f & Hf & Hc & ->).
    exists f. repeat split; try done. apply dirname_prefix.
  - intros Hd. by rewrite Hd in Hinv.
  - intros e Hd. by rewrite Hd in Hinv.
Qed.

Lemma find_local_storage_inv_witness :
  (∃ f, f ∈ (list_open_files racy_world {| pid := 7 |}).1
        ∧ PyStr.contains "Local Storage" f = true
        ∧ demo_dir = PosixPath.dirname f
        ∧ PyStr.startswith f demo_dir = true)
  ∧ (list_open_files demo_world {| pid := 9 |}).2 = None
  ∧ (list_open_files demo_world {| pid := 1 |}).2 = Some OSError.
Proof.
  split; [|split].
  - by apply (proj1 (find_local_storage_inv racy_world {| pid := 7 |})).
  - by apply (proj1 (proj2 (find_local_storage_inv demo_world {| pid := 9 |}))).
  - by apply (proj2 (proj2 (find_local_storage_inv demo_world {| pid := 1 |}))).
Defined.

(** * Further properties of the accessor *)

(** ** The name of the database file *)

Lemma append_assoc (a b c : string) : (a ++ b) ++ c = a ++ b ++ c.
Proof.
  induction a as [|x a IH]; [done|]. rewrite !append_cons_l. by f_equal.
Qed.

(** Two ways of cutting one string: one cut lies before the other. *)
Lemma append_eq_append (a b c d : string) :
  a ++ b = c ++ d →
  (∃ m, c = a ++ m ∧ b = m ++ d) ∨ (∃ m, a = c ++ m ∧ d = m ++ b).
Proof.
  revert c. induction a as [|x a IH]; intros c Heq.
  - left. by exists c.
  - destruct c as [|y c].
    + right. by exists (String x a).
    + rewrite !append_cons_l in Heq. injection Heq as -> Heq.
      destruct (IH c Heq) as [(m & -> & ->)|(m & -> & ->)];
        [left | right]; by exists m.
Qed.

(** A non-empty end of a string that ends with ["_"] ends with ["_"]. *)
Lemma tail_of_underscore (q u m : string) :
  q ++ "_" = u ++ m → m ≠ "" → ∃ m', m = m' ++ "_".
Proof.
  intros Heq Hm.
  destruct (append_eq_append _ _ _ _ Heq) as [(k & -> & Hk)|(k & -> & ->)].
  - destruct k as [|x k].
    + exists "". by rewrite Hk.
    + rewrite append_cons_l in Hk. injection Hk as <- Hk.
      destruct k; [|discriminate]. by destruct m.
  - by exists k.
Qed.

(** X7: the test of [connect] on a file name is the pattern
    [<proto>_<site>_*.localstorage]: the prefix and the suffix that the code
    tests separately cannot overlap, so a name is accepted exactly when it
    is the prefix, any middle part, and the suffix. *)
Theorem name_matches_shape (this : LocalStorage) (f : string) :
  name_matches this f = true ↔
  ∃ mid, f = proto this ++ "_" ++ site this ++ "_" ++ mid ++ ".localstorage".
Proof.
  rewrite name_matches_spec. split.
  - intros [[t Ht] [u Hu]]. rewrite Ht in Hu.
    destruct (append_eq_append _ _ _ _ Hu) as [(m & -> & ->)|(m & Hp & Hs)].
    + exists m. rewrite Ht. by rewrite !append_assoc.
    + destruct m as [|x m].
      * exists "". rewrite append_nil_l in Hs. rewrite Ht, <- Hs.
        by rewrite !append_assoc.
      * exfalso.
        assert (Hq : (proto this ++ "_" ++ site this) ++ "_"
                     = u ++ String x m) by (by rewrite !append_assoc).
        destruct (tail_of_underscore _ _ _ Hq) as [m' Hm']; [done|].
        assert (Hc : PyStr.contains "_" ".localstorage" = true).
        { apply contains_spec. exists m', t. rewrite Hs, Hm'.
          by rewrite append_assoc. }
        discriminate Hc.
  - intros [mid ->]. split.
    + exists (mid ++ ".localstorage"). by rewrite !append_assoc.
    + exists (proto this ++ "_" ++ site this ++ "_" ++ mid).
      by rewrite !append_assoc.
Qed.

Lemma name_matches_shape_witness :
  ∃ mid, "https_example.com_0.localstorage"
         = proto (self demo_state) ++ "_" ++ site (self demo_state) ++ "_"
           ++ mid ++ ".localstorage".
Proof.
  apply (proj1 (name_matches_shape (self demo_state)
                  "https_example.com_0.localstorage")).
  reflexivity.
Defined.

(** ** What the methods do to the state *)

Section StateFacts.
Context (w : World).
Implicit Types (s : State) (key : string).

Lemma connect_loop_cases s (entries : list string) r s' :
  connect_loop w entries s = (r, s') →
  (s' = s ∧ (r = Ret None ∨ ∃ e, r = Raise e))
  ∨ ∃ f, f ∈ entries
         ∧ name_matches (self s) f = true
         ∧ r = Ret (Some (length (conns s)))
         ∧ s' = connected_state s (PosixPath.join (storage (self s)) f).
Proof.
  induction entries as [|g entries IH]; simpl; run.
  - intros [= <- <-]. left. split; [done | by left].
  - destruct (name_matches (self s) g) eqn:Hg.
    + unfold sqlite3_connect. destruct (sqlite_open w _) as [?|e].
      * intros [= <- <-]. right. exists g.
        split; [apply elem_of_cons; by left | done].
      * intros [= <- <-]. left. split; [done | right; by exists e].
    + intros [Hsame|(f & Hf & Hrest)]%IH; [by left | right].
      exists f. split; [apply elem_of_cons; by right | done].
Qed.

(** [connect] either changes nothing, or it was disconnected and is now
    connected to a file with a matching name through a new connection. *)
Lemma connect_cases s r s' :
  connect w s = (r, s') →
  (s' = s
   ∧ (r = Ret (connection (self s))
      ∨ (connection (self s) = None ∧ ∃ e, r = Raise e)))
  ∨ (connection (self s) = None
     ∧ ∃ f, name_matches (self s) f = true
            ∧ r = Ret (Some (length (conns s)))
            ∧ s' = connected_state s (PosixPath.join (storage (self s)) f)).
Proof.
  destruct (connection (self s)) as [c|] eqn:Hc.
  - rewrite (connect_held _ _ _ Hc). intros [= <- <-]. left.
    split; [done | by left].
  - rewrite (connect_unheld _ _ Hc).
    destruct (listdir w (storage (self s))) as [entries|e].
    + intros [[-> [->|[e ->]]]|(f & _ & Hf & -> & ->)]%connect_loop_cases.
      * left. split; [done | by left].
      * left. split; [done | right; split; [done | by exists e]].
      * right. split; [done | by exists f].
    + intros [= <- <-]. left. split; [done | right; split; [done | by exists e]].
Qed.

Lemma query_state (con : option nat) s :
  (query_ItemTable w con s).2 = s.
Proof.
  unfold query_ItemTable. destruct con as [c|]; run; [|done].
  destruct (conns s !! c) as [o|]; [|done]. by destruct (conn_open o).
Qed.

(** The read operations change the state as [connect] alone does. *)
Lemma read_state s : (read w s).2 = (connect w s).2.
Proof.
  unfold read. run. destruct (connect w s) as [[con|e] s1]; [|done].
  pose proof (query_state con s1) as Hq.
  by destruct (query_ItemTable w con s1) as [[rows|e] s2].
Qed.

Lemma read_key_state s key : (read_key w key s).2 = (connect w s).2.
Proof.
  unfold read_key. run. destruct (connect w s) as [[con|e] s1]; [|done].
  pose proof (query_state con s1) as Hq.
  destruct (query_ItemTable w con s1) as [[rows|e] s2]; [|done].
  simpl in *. subst s2. unfold try_except, fetchone_0. run.
  by destruct (head (select_value key rows)).
Qed.

Lemma getitem_state s key : (getitem w key s).2 = (connect w s).2.
Proof.
  rewrite <- (read_key_state s key). unfold getitem. run.
  destruct (read_key w key s) as [[item|e] s1]; [|done].
  by destruct (pyval_truthy item).
Qed.

Lemma read_iter_state s : (read_iter w s).2 = (connect w s).2.
Proof.
  unfold read_iter. destruct (connect w s) as [[con|e] s1]; [|done].
  pose proof (query_state con s1) as Hq.
  by destruct (query_ItemTable w con s1) as [[rows|e] s2].
Qed.

End StateFacts.

(** ** Reading *)

Lemma yield_rows_all (rows : list row) : yield_rows rows = (rows, None).
Proof.
  induction rows as [|r rows IH]; [done|]. simpl. by rewrite IH.
Qed.

Lemma read_iter_connected (w : World) (s : State) (rows : list row) :
  connected_to w s rows → read_iter w s = ((rows, None), s).
Proof.
  intros (c & o & Hc & Ho & Hopen & Hrows).
  unfold read_iter. rewrite (connect_held w s c Hc).
  unfold query_ItemTable. run. rewrite Ho, Hopen, Hrows.
  by rewrite yield_rows_all.
Qed.

(** X8: through a held connection [read] returns a dictionary and leaves
    the state alone.  A key is in the dictionary exactly when a row carries
    it, its value is the value of the last such row, and when the keys of
    the table are unique the dictionary holds exactly the rows. *)
Theorem read_dictionary (w : World) (s : State) (rows : list row) :
  connected_to w s rows →
  ∃ values : gmap string pyval,
    read w s = (Ret values, s)
    ∧ (∀ key, values !! key = last (select_value key rows))
    ∧ (∀ key, is_Some (values !! key) ↔ key ∈ rows.*1)
    ∧ (∀ key v, values !! key = Some v → (key, v) ∈ rows)
    ∧ (NoDup rows.*1 → ∀ key v, values !! key = Some v ↔ (key, v) ∈ rows).
Proof.
  intros Hcon. exists (collect rows).
  assert (Hval : ∀ key v, collect rows !! key = Some v → (key, v) ∈ rows).
  { intros key v. rewrite collect_lookup. intros Hlast%last_Some_elem_of.
    by apply elem_of_select_value. }
  assert (Hin : ∀ key, key ∈ rows.*1 → is_Some (collect rows !! key)).
  { intros key ([k v] & Hk & Hv)%list_elem_of_fmap. simpl in Hk. subst k.
    rewrite collect_lookup. apply last_is_Some. intros Hnil.
    apply elem_of_select_value in Hv. rewrite Hnil in Hv.
    by apply elem_of_nil in Hv. }
  split; [by apply read_connected|]. split; [apply collect_lookup|].
  split; [|split; [done|]].
  - intros key. split; [|apply Hin].
    intros [v Hv%Hval]. apply list_elem_of_fmap. by exists (key, v).
  - intros Hnd key v. split; [apply Hval|]. intros Hv.
    destruct (Hin key) as [v' Hv'].
    { apply list_elem_of_fmap. by exists (key, v). }
    rewrite Hv'. f_equal. apply (unique_key_value rows key); [done| |done].
    by apply Hval.
Qed.

Lemma read_dictionary_witness :
  ∃ values : gmap string pyval,
    read dup_world demo_connected = (Ret values, demo_connected)
    ∧ values !! "k" = Some (PyStr "b")
    ∧ ¬ is_Some (values !! "missing").
Proof.
  destruct (read_dictionary dup_world demo_connected dup_rows dup_connected_to)
    as (values & Hread & Hlast & Hdom & _).
  exists values. split; [done|]. split.
  - by rewrite Hlast.
  - rewrite Hdom. apply (bool_decide_unpack _). by vm_compute.
Defined.

(** X9: the first read connects.  On a disconnected accessor whose
    directory has a matching file that opens, [read] returns the content of
    the first such file and leaves the accessor connected to it; a second
    [read] returns the same through the same connection, opening nothing. *)
Theorem first_read_connects (w : World) (s : State) (pre post : list string)
    (f : string) (rows : list row) :
  connection (self s) = None →
  listdir w (storage (self s)) = Ret (pre ++ f :: post)%list →
  Forall (λ g, name_matches (self s) g = false) pre →
  name_matches (self s) f = true →
  sqlite_open w (PosixPath.join (storage (self s)) f) = Ret () →
  item_table w (PosixPath.join (storage (self s)) f) = Ret rows →
  let s' := connected_state s (PosixPath.join (storage (self s)) f) in
  read w s = (Ret (collect rows), s')
  ∧ is_connected s' = (Ret true, s')
  ∧ read w s' = (Ret (collect rows), s').
Proof.
  intros Hnone Hlist Hpre Hf Hopen Hrows s'.
  assert (Hcon : connected_to w s' rows).
  { exists (length (conns s)),
      {| conn_path := PosixPath.join (storage (self s)) f; conn_open := true |}.
    split; [done|]. split; [|done]. simpl.
    by rewrite lookup_app_r, Nat.sub_diag. }
  assert (Hfirst : connect w s = (Ret (Some (length (conns s))), s')).
  { by rewrite (connect_unheld w s Hnone), Hlist,
      (connect_loop_first_match w s pre post f Hpre Hf), Hopen. }
  assert (Hagain : connect w s' = (Ret (Some (length (conns s))), s'))
    by (by apply connect_held).
  pose proof (read_connected w s' rows Hcon) as Hread.
  split; [|by split].
  rewrite <- Hread. unfold read, mbind, M_bind. by rewrite Hfirst, Hagain.
Qed.

Lemma first_read_connects_witness :
  read demo_world demo_state = (Ret (collect demo_rows), demo_connected)
  ∧ is_connected demo_connected = (Ret true, demo_connected)
  ∧ read demo_world demo_connected = (Ret (collect demo_rows), demo_connected).
Proof.
  apply (first_read_connects demo_world demo_state
           [ "http_example.com_0.localstorage" ]
           [ "https_example.com_1.localstorage" ]
           "https_example.com_0.localstorage" demo_rows);
    try reflexivity.
  by repeat constructor.
Defined.

(** X10: [self[key]] returns exactly the truthy results of [read_key] and
    never a falsy value; it raises what [read_key] raises, and [IndexError]
    exactly when [read_key] returns a falsy value.  The state it leaves is
    the one [read_key] leaves. *)
Theorem getitem_iff_read_key (w : World) (key : string) (s : State) :
  (∀ v s', getitem w key s = (Ret v, s') ↔
           read_key w key s = (Ret v, s') ∧ pyval_truthy v = true)
  ∧ (∀ e s', getitem w key s = (Raise e, s') ↔
             read_key w key s = (Raise e, s')
             ∨ (e = IndexError
                ∧ ∃ v, read_key w key s = (Ret v, s')
                       ∧ pyval_truthy v = false)).
Proof.
  unfold getitem. run.
  destruct (read_key w key s) as [[item|e0] s0]; split; intros x s'.
  - destruct (pyval_truthy item) eqn:Ht; run.
    + split; [by intros [= <- <-] | by intros [[= <- <-] _]].
    + split; [done | intros [[= <- <-] ?]; congruence].
  - destruct (pyval_truthy item) eqn:Ht; run.
    + split; [done|]. intros [?|(_ & v & [= <- <-] & ?)]; [done | congruence].
    + split.
      * intros [= <- <-]. right. split; [done | by exists item].
      * by intros [?|(-> & v & [= <- <-] & _)].
  - split; [done | by intros [? _]].
  - split; [by intros [= <- <-]; left|].
    by intros [[= <- <-]|(_ & v & ? & _)].
Qed.

Lemma getitem_iff_read_key_witness :
  getitem demo_world "theme" demo_connected
    = (Ret (PyStr "dark"), demo_connected)
  ∧ getitem demo_world "draft" demo_connected
    = (Raise IndexError, demo_connected).
Proof.
  destruct (getitem_iff_read_key demo_world "theme" demo_connected)
    as [Hret _].
  destruct (getitem_iff_read_key demo_world "draft" demo_connected)
    as [_ Hraise].
  split.
  - apply Hret. split; [by vm_compute | reflexivity].
  - apply Hraise. right. split; [reflexivity|].
    exists (PyStr ""). split; [by vm_compute | reflexivity].
Defined.

(** X11: with no connection held and no matching file in the directory,
    the lookups do not return [None] and indexing does not raise
    [IndexError]: [read_key], [self[key]] and [read_iter] all end with the
    [AttributeError] of a method call on [None], and change nothing. *)
Theorem lookups_without_file (w : World) (s : State) (entries : list string)
    (key : string) :
  connection (self s) = None →
  listdir w (storage (self s)) = Ret entries →
  Forall (λ g, name_matches (self s) g = false) entries →
  read_key w key s = (Raise AttributeError, s)
  ∧ getitem w key s = (Raise AttributeError, s)
  ∧ read_iter w s = (([], Some AttributeError), s).
Proof.
  intros Hnone Hlist Hall.
  assert (Hcon : connect w s = (Ret None, s)).
  { rewrite (connect_unheld _ _ Hnone), Hlist. by apply connect_loop_no_match. }
  assert (Hkey : read_key w key s = (Raise AttributeError, s)).
  { unfold read_key. run. by rewrite Hcon. }
  split; [done|]. split.
  - unfold getitem. run. by rewrite Hkey.
  - unfold read_iter. by rewrite Hcon.
Qed.

Lemma lookups_without_file_witness :
  read_key demo_world "theme" nosite_state = (Raise AttributeError, nosite_state)
  ∧ getitem demo_world "theme" nosite_state
    = (Raise AttributeError, nosite_state)
  ∧ read_iter demo_world nosite_state
    = (([], Some AttributeError), nosite_state).
Proof.
  apply (lookups_without_file demo_world nosite_state
           [ "http_example.com_0.localstorage";
             "https_example.com_0.localstorage";
             "https_example.com_1.localstorage" ]);
    [reflexivity | reflexivity | by repeat constructor].
Defined.

(** X12: an exception raised by the query on [ItemTable] (a file that is
    not a Local Storage database) reaches the caller of every read
    operation, whatever its class: the [except TypeError] of [read_key] only
    guards the subscript of the fetched row.  The accessor stays connected. *)
Theorem query_error_propagates (w : World) (s : State) (e : exn)
    (key : string) :
  connected_broken w s e →
  read w s = (Raise e, s)
  ∧ read_key w key s = (Raise e, s)
  ∧ getitem w key s = (Raise e, s)
  ∧ read_iter w s = (([], Some e), s)
  ∧ is_connected s = (Ret true, s).
Proof.
  intros (c & o & Hc & Ho & Hopen & Hrows).
  assert (Hkey : read_key w key s = (Raise e, s)).
  { unfold read_key. run. rewrite (connect_held w s c Hc).
    unfold query_ItemTable. run. by rewrite Ho, Hopen, Hrows. }
  split; [|split; [done|split; [|split]]].
  - unfold read. run. rewrite (connect_held w s c Hc).
    unfold query_ItemTable. run. by rewrite Ho, Hopen, Hrows.
  - unfold getitem. run. by rewrite Hkey.
  - unfold read_iter. rewrite (connect_held w s c Hc).
    unfold query_ItemTable. run. by rewrite Ho, Hopen, Hrows.
  - unfold is_connected. run. by rewrite Hc.
Qed.

Lemma query_error_propagates_witness :
  read broken_world demo_connected = (Raise OperationalError, demo_connected)
  ∧ read_key broken_world "theme" demo_connected
    = (Raise OperationalError, demo_connected)
  ∧ getitem broken_world "theme" demo_connected
    = (Raise OperationalError, demo_connected)
  ∧ read_iter broken_world demo_connected
    = (([], Some OperationalError), demo_connected)
  ∧ is_connected demo_connected = (Ret true, demo_connected).
Proof.
  apply (query_error_propagates broken_world demo_connected OperationalError).
  exists 0, {| conn_path := demo_db; conn_open := true |}. by repeat split.
Defined.

(** X13: through a held connection on a table whose query delivers its
    rows, [read_iter] yields those rows, in the order of the table, ends
    normally and leaves the accessor as it was; [read] returns the
    dictionary made of the rows that [read_iter] yields.  In every case the
    two leave the accessor in the same state. *)
Theorem read_iter_yields_table (w : World) (s : State) :
  (∀ rows,
     connected_to w s rows →
     read_iter w s = ((rows, None), s)
     ∧ read w s = (Ret (collect (read_iter w s).1.1), s))
  ∧ (read_iter w s).2 = (read w s).2.
Proof.
  split.
  - intros rows Hcon. rewrite (read_iter_connected w s rows Hcon).
    split; [done | by apply read_connected].
  - by rewrite read_iter_state, read_state.
Qed.

Lemma read_iter_yields_table_witness :
  read_iter demo_world demo_connected = ((demo_rows, None), demo_connected)
  ∧ read demo_world demo_connected
    = (Ret (collect (read_iter demo_world demo_connected).1.1), demo_connected).
Proof.
  apply (read_iter_yields_table demo_world demo_connected).
  apply demo_connected_to.
Defined.

(** ** Connecting and closing *)

Section LifecycleFacts.
Context (w : World).
Implicit Types (s : State) (key : string).

Lemma connected_state_lookup s (path : string) :
  conns (connected_state s path) !! length (conns s)
  = Some {| conn_path := path; conn_open := true |}.
Proof. simpl. by rewrite lookup_app_r, Nat.sub_diag. Qed.

Lemma connect_valid s : holds_valid s → holds_valid (connect w s).2.
Proof.
  intros Hs. destruct (connect w s) as [r s'] eqn:E. simpl.
  destruct (connect_cases w s r s' E)
    as [[-> _]|(Hnone & f & Hf & -> & ->)]; [done|].
  intros c [= <-].
  exists {| conn_path := PosixPath.join (storage (self s)) f;
            conn_open := true |}, f.
  split; [apply connected_state_lookup | done].
Qed.

Lemma connect_same_instance s :
  same_instance s (connect w s).2 ∧ opens_at_most_one s (connect w s).2.
Proof.
  destruct (connect w s) as [r s'] eqn:E. simpl.
  destruct (connect_cases w s r s' E)
    as [[-> _]|(Hnone & f & Hf & -> & ->)].
  - split; [done | by left].
  - split; [done | right; by eexists].
Qed.

Lemma connect_no_stray s : no_stray s → no_stray (connect w s).2.
Proof.
  intros Hs. destruct (connect w s) as [r s'] eqn:E. simpl.
  destruct (connect_cases w s r s' E)
    as [[-> _]|(Hnone & f & Hf & -> & ->)]; [done|].
  intros i o Hi Hopen. simpl in *.
  apply lookup_app_Some in Hi as [Hi|[Hge Hi]].
  - specialize (Hs i o Hi Hopen). congruence.
  - apply list_lookup_singleton_Some in Hi as [Hi _].
    f_equal. lia.
Qed.

Lemma close_same_instance s : same_instance s (close s).2.
Proof.
  destruct (connection (self s)) as [c|] eqn:Hc.
  - by rewrite (close_held _ _ Hc).
  - by rewrite (close_unheld _ Hc).
Qed.

Lemma close_entries s i (o : Connection) :
  conns s !! i = Some o →
  (connection (self s) ≠ Some i ∧ conns (close s).2 !! i = Some o)
  ∨ (connection (self s) = Some i ∧ conns (close s).2 !! i = Some (closed o)).
Proof.
  intros Hi. destruct (connection (self s)) as [c|] eqn:Hc.
  - rewrite (close_held _ _ Hc). simpl. destruct (decide (c = i)) as [->|Hne].
    + right. split; [done|]. by rewrite list_lookup_alter_eq, Hi.
    + left. split; [congruence|]. by rewrite list_lookup_alter_ne.
  - rewrite (close_unheld _ Hc). by left.
Qed.

Lemma close_all_closed s :
  no_stray s → Forall (λ o, conn_open o = false) (conns (close s).2).
Proof.
  intros Hs. apply Forall_lookup. intros i o' Hi.
  destruct (conn_open o') eqn:Hopen; [exfalso | done].
  destruct (connection (self s)) as [c|] eqn:Hc.
  - rewrite (close_held _ _ Hc) in Hi. simpl in Hi.
    destruct (decide (c = i)) as [->|Hne].
    + rewrite list_lookup_alter_eq in Hi.
      destruct (conns s !! i) as [o|]; [|done].
      injection Hi as <-. done.
    + rewrite list_lookup_alter_ne in Hi by done.
      specialize (Hs i o' Hi Hopen). congruence.
  - rewrite (close_unheld _ Hc) in Hi.
    specialize (Hs i o' Hi Hopen). congruence.
Qed.

End LifecycleFacts.

(** X14: the connection held is always a good one.  A new instance is
    disconnected, and every method keeps this: what [connection] refers to
    is an open connection of the store, on a file of the storage directory
    whose name has the form [<proto>_<site>_*.localstorage].  So is every
    connection that [connect] returns. *)
Theorem accessor_invariant :
  (∀ (site_ storage_ : string) (proto_ : option string)
     (cs : list Connection),
     holds_valid {| self := init site_ storage_ proto_; conns := cs |})
  ∧ (∀ (w : World) (s : State) (key : string),
       holds_valid s →
       holds_valid (connect w s).2
       ∧ holds_valid (read w s).2
       ∧ holds_valid (read_iter w s).2
       ∧ holds_valid (read_key w key s).2
       ∧ holds_valid (getitem w key s).2
       ∧ holds_valid (close s).2)
  ∧ (∀ (w : World) (s s' : State) (c : nat),
       holds_valid s →
       connect w s = (Ret (Some c), s') →
       ∃ o mid,
         conns s' !! c = Some o
         ∧ conn_open o = true
         ∧ conn_path o
           = PosixPath.join (storage (self s))
               (proto (self s) ++ "_" ++ site (self s) ++ "_" ++ mid
                ++ ".localstorage")).
Proof.
  split; [by intros ? ? ? ? c [=]|]. split.
  - intros w s key Hs.
    rewrite read_state, read_iter_state, read_key_state, getitem_state.
    pose proof (connect_valid w s Hs) as Hc.
    repeat split; try done.
    intros c. by rewrite close_resets.
  - intros w s s' c Hs E.
    pose proof (connect_valid w s Hs) as Hv. rewrite E in Hv. simpl in Hv.
    pose proof (connect_same_instance w s) as [(Hst & Hsi & Hpr) _].
    rewrite E in Hst, Hsi, Hpr. simpl in Hst, Hsi, Hpr.
    destruct (connect_outcome w s _ s' E)
      as [[_ [?|[e ?]]]|(c' & [= <-] & Hc)]; [done | done |].
    destruct (Hv c Hc) as (o & f & Ho & Hopen & Hf & Hpath).
    apply name_matches_shape in Hf as [mid ->].
    exists o, mid. rewrite Hpath, Hst, Hsi, Hpr. done.
Qed.

Lemma accessor_invariant_witness :
  holds_valid (read demo_world demo_state).2
  ∧ ∃ o mid,
      conns demo_connected !! 0 = Some o
      ∧ conn_open o = true
      ∧ conn_path o
        = PosixPath.join demo_dir
            ("https" ++ "_" ++ "example.com" ++ "_" ++ mid ++ ".localstorage").
Proof.
  destruct accessor_invariant as (Hnew & Hkeep & Hret).
  split.
  - apply (Hkeep demo_world demo_state "theme"). apply Hnew.
  - apply (Hret demo_world demo_state demo_connected 0);
      [apply Hnew | reflexivity].
Defined.

(** X15: no method touches [site], [storage] or [proto], and none removes
    a connection from the store.  [connect] and the read operations leave
    the store as it is or add one open connection at its end; [close]
    changes no entry but the one the instance holds, which it marks
    closed. *)
Theorem methods_preserve_instance (w : World) (s : State) (key : string) :
  (same_instance s (connect w s).2 ∧ opens_at_most_one s (connect w s).2)
  ∧ (same_instance s (read w s).2 ∧ opens_at_most_one s (read w s).2)
  ∧ (same_instance s (read_iter w s).2
     ∧ opens_at_most_one s (read_iter w s).2)
  ∧ (same_instance s (read_key w key s).2
     ∧ opens_at_most_one s (read_key w key s).2)
  ∧ (same_instance s (getitem w key s).2
     ∧ opens_at_most_one s (getitem w key s).2)
  ∧ same_instance s (close s).2
  ∧ length (conns (close s).2) = length (conns s)
  ∧ (∀ i o, conns s !! i = Some o →
       (connection (self s) ≠ Some i ∧ conns (close s).2 !! i = Some o)
       ∨ (connection (self s) = Some i
          ∧ conns (close s).2 !! i = Some (closed o))).
Proof.
  rewrite read_state, read_iter_state, read_key_state, getitem_state.
  pose proof (connect_same_instance w s) as Hc.
  repeat (split; [exact Hc|]).
  split; [apply close_same_instance|]. split; [|apply close_entries].
  destruct (connection (self s)) as [c|] eqn:Hheld.
  - rewrite (close_held _ _ Hheld). simpl. apply length_alter.
  - by rewrite (close_unheld _ Hheld).
Qed.

Lemma methods_preserve_instance_witness :
  (connection (self demo_connected) ≠ Some 0
   ∧ conns (close demo_connected).2 !! 0
     = Some {| conn_path := demo_db; conn_open := true |})
  ∨ (connection (self demo_connected) = Some 0
     ∧ conns (close demo_connected).2 !! 0
       = Some (closed {| conn_path := demo_db; conn_open := true |})).
Proof.
  apply (methods_preserve_instance demo_world demo_connected "theme").
  reflexivity.
Defined.

(** X16: [connect] settles on the first matching name.  When the directory
    cannot be listed, or when the first matching file cannot be opened, the
    exception reaches the caller, the later entries are not tried even if
    one of them matches, and the accessor is left disconnected and
    unchanged. *)
Theorem connect_failures (w : World) (s : State) :
  connection (self s) = None →
  (∀ e, listdir w (storage (self s)) = Raise e → connect w s = (Raise e, s))
  ∧ (∀ pre f post e,
       listdir w (storage (self s)) = Ret (pre ++ f :: post)%list →
       Forall (λ g, name_matches (self s) g = false) pre →
       name_matches (self s) f = true →
       sqlite_open w (PosixPath.join (storage (self s)) f) = Raise e →
       connect w s = (Raise e, s)).
Proof.
  intros Hnone. rewrite (connect_unheld w s Hnone). split.
  - by intros e ->.
  - intros pre f post e -> Hpre Hf Hopen.
    by rewrite (connect_loop_first_match w s pre post f Hpre Hf), Hopen.
Qed.

Lemma connect_failures_witness :
  connect unopenable_world demo_state = (Raise OperationalError, demo_state)
  ∧ name_matches (self demo_state) "https_example.com_1.localstorage" = true
  ∧ sqlite_open unopenable_world
      (PosixPath.join demo_dir "https_example.com_1.localstorage") = Ret ()
  ∧ connect demo_world {| self := init "example.com" "/nonexistent" None;
                          conns := [] |}
    = (Raise OSError, {| self := init "example.com" "/nonexistent" None;
                         conns := [] |}).
Proof.
  split; [|split; [reflexivity | split; [reflexivity|]]].
  - apply (proj2 (connect_failures unopenable_world demo_state eq_refl)
             [ "http_example.com_0.localstorage" ]
             "https_example.com_0.localstorage"
             [ "https_example.com_1.localstorage" ]);
      try reflexivity.
    by repeat constructor.
  - by apply (proj1 (connect_failures demo_world
                       {| self := init "example.com" "/nonexistent" None;
                          conns := [] |} eq_refl)).
Defined.

(** X17: an accessor has at most one open connection, and none once
    closed.  Starting from a new instance, the only open connection of the
    store is the one the instance holds; every method keeps this, and after
    [close] every connection of the store is closed. *)
Theorem at_most_one_open :
  (∀ (site_ storage_ : string) (proto_ : option string),
     no_stray {| self := init site_ storage_ proto_; conns := [] |})
  ∧ (∀ (w : World) (s : State) (key : string),
       no_stray s →
       no_stray (connect w s).2
       ∧ no_stray (read w s).2
       ∧ no_stray (read_iter w s).2
       ∧ no_stray (read_key w key s).2
       ∧ no_stray (getitem w key s).2
       ∧ no_stray (close s).2
       ∧ Forall (λ o, conn_open o = false) (conns (close s).2)).
Proof.
  split; [by intros ? ? ? i o ?|].
  intros w s key Hs.
  rewrite read_state, read_iter_state, read_key_state, getitem_state.
  pose proof (connect_no_stray w s Hs) as Hc.
  pose proof (close_all_closed s Hs) as Hclosed.
  repeat split; try done.
  intros i o Hi Hopen. rewrite Forall_lookup in Hclosed.
  specialize (Hclosed i o Hi). congruence.
Qed.

Lemma at_most_one_open_witness :
  no_stray (read demo_world demo_state).2
  ∧ Forall (λ o, conn_open o = false)
      (conns (close (read demo_world demo_state).2).2).
Proof.
  destruct at_most_one_open as [Hnew Hkeep].
  pose proof (Hkeep demo_world demo_state "theme" (Hnew _ _ _))
    as (_ & Hread & _).
  split; [done|].
  by apply (Hkeep demo_world (read demo_world demo_state).2 "theme").
Defined.

(** ** From an open database file back to its directory *)

Lemma no_char_rfind (c : ascii) (s : string) :
  PyStr.contains (String c "") s = false → PyStr.rfind_succ c s = 0.
Proof.
  induction s as [|a r IH]; [done|].
  rewrite contains_char_cons. intros [Ha Hr]%orb_false_iff.
  simpl. rewrite (IH Hr).
  destruct (Ascii.eqb_spec a c) as [->|]; [|done].
  by destruct (ascii_dec c c).
Qed.

Lemma rfind_succ_last (c : ascii) (d f : string) :
  PyStr.contains (String c "") f = false →
  PyStr.rfind_succ c (d ++ String c f) = S (String.length d).
Proof.
  intros Hf. induction d as [|a d IH].
  - change ("" ++ String c f) with (String c f). simpl.
    by rewrite (no_char_rfind c f Hf), Ascii.eqb_refl.
  - rewrite append_cons_l. simpl. by rewrite IH.
Qed.

Lemma slice_to_app (d s : string) (n : nat) :
  PyStr.slice_to (String.length d + n) (d ++ s) = d ++ PyStr.slice_to n s.
Proof.
  induction d as [|a d IH]; [done|].
  rewrite append_cons_l.
  change (PyStr.slice_to (String.length (String a d) + n) (String a (d ++ s)))
    with (String a (PyStr.slice_to (String.length d + n) (d ++ s))).
  by rewrite IH.
Qed.

Lemma rstrip_added (c : ascii) (d : string) :
  d ≠ "" → PyStr.endswith d (String c "") = false →
  PyStr.rstrip c (d ++ String c "") = d
  ∧ PyStr.all_char c (d ++ String c "") = false.
Proof.
  induction d as [|a d IH]; [done|]. intros _.
  rewrite endswith_eq. intros [Ha Hd]%orb_false_iff.
  rewrite append_cons_l. simpl. destruct d as [|b d].
  - change ("" ++ String c "") with (String c ""). simpl.
    rewrite Ascii.eqb_refl.
    destruct (Ascii.eqb_spec a c) as [->|]; [|done].
    by rewrite String.eqb_refl in Ha.
  - destruct (IH ltac:(done) Hd) as [-> ->]. by rewrite andb_false_r.
Qed.

Lemma no_sep_not_absolute (f : string) :
  PyStr.contains "/" f = false → PyStr.startswith f "/" = false.
Proof.
  rewrite contains_eq. by intros [? _]%orb_false_iff.
Qed.

Lemma dirname_join (d f : string) :
  d ≠ "" →
  PyStr.endswith d "/" = false →
  PyStr.contains "/" f = false →
  PosixPath.join d f = d ++ "/" ++ f
  ∧ PosixPath.dirname (PosixPath.join d f) = d.
Proof.
  intros Hd Hend Hf.
  assert (Hjoin : PosixPath.join d f = d ++ "/" ++ f).
  { unfold PosixPath.join. rewrite (no_sep_not_absolute f Hf), Hend.
    by destruct d. }
  split; [done|]. rewrite Hjoin. unfold PosixPath.dirname.
  change (d ++ "/" ++ f) with (d ++ String PosixPath.sep f).
  rewrite (rfind_succ_last PosixPath.sep d f Hf).
  replace (S (String.length d)) with (String.length d + 1) by lia.
  rewrite slice_to_app.
  change (PyStr.slice_to 1 (String PosixPath.sep f))
    with (String PosixPath.sep (PyStr.slice_to 0 f)).
  rewrite slice_to_0.
  destruct (rstrip_added PosixPath.sep d Hd Hend) as [-> ->].
  by destruct d.
Qed.

(** X18: the directory inferred from an open database file is the
    directory in which [connect] looks for it.  When the first open file
    whose path contains ["Local Storage"] is the entry [name] of a directory
    [d] (a non-empty path without a trailing ['/']), that is the path that
    [connect] builds with [os.path.join(d, name)], then
    [find_local_storage] returns [d]. *)
Theorem storage_directory_round_trip (w : World) (proc : Process)
    (d name : string) (pre post : list string) :
  d ≠ "" →
  PyStr.endswith d "/" = false →
  PyStr.contains "/" name = false →
  (list_open_files w proc).1 = (pre ++ PosixPath.join d name :: post)%list →
  Forall (λ g, PyStr.contains "Local Storage" g = false) pre →
  PyStr.contains "Local Storage" (PosixPath.join d name) = true →
  PosixPath.join d name = d ++ "/" ++ name
  ∧ find_local_storage w proc = Ret (Some d).
Proof.
  intros Hd Hend Hname Hfiles Hpre Hmatch.
  destruct (dirname_join d name Hd Hend Hname) as [Hjoin Hdir].
  split; [done|]. unfold find_local_storage.
  by rewrite Hfiles, (find_loop_first_match pre post _ _ Hpre Hmatch), Hdir.
Qed.

Lemma storage_directory_round_trip_witness :
  PosixPath.join demo_dir "https_example.com_0.localstorage"
    = demo_dir ++ "/" ++ "https_example.com_0.localstorage"
  ∧ find_local_storage demo_world {| pid := 7 |} = Ret (Some demo_dir).
Proof.
  apply (storage_directory_round_trip demo_world {| pid := 7 |} demo_dir
           "https_example.com_0.localstorage"
           [ "/dev/null" ] [ "/tmp/Local Storage copy/x" ]);
    try reflexivity; [discriminate | by repeat constructor].
Defined.
